(** * log-parser: a shallow embedding of the file-tracking engine

    Sources embedded here:
    - [src/log_parser/log_parser.py]: [_FileState], [_check_file_state],
      [track_file], [track_async], [track];
    - [src/log_parser/cli.py]: [_load_parser_configs], [run].

    Modelling conventions.
    - The operating system is an explicit value: a directory (path to file
      identity), an inode table (identity to metadata and data) and a table
      of open descriptors.  An inode survives [unlink] while a descriptor
      still refers to it, as on POSIX.
    - File data is a [string]; one character stands for one byte (a
      single-byte encoding), so that [tell] and [st_size] count the same
      unit.
    - A coroutine is a machine with one control point per [await]; one step
      runs the code from one [await] to the next.  An awaited library call
      (open, readline, seek, aclose, a coroutine handler) is one atomic
      effect.  Cancellation is an input delivered at a control point.
    - Other processes change the files between two steps, and also inside
      [_check_file_state], between its two [os.stat] calls.
    - The event loop is explicit: a schedule says which task runs next,
      when the done callback of a finished task runs, when the task that
      waits in [TaskGroup.__aexit__] runs, and when the deadline fires. *)

From Stdlib Require Import ZArith List String Ascii Lia Bool.
From stdpp Require Import base gmap strings list fin_maps.

(** ** Exceptions *)

#[local] Unset Elimination Schemes.
Inductive exn : Type :=
| FileNotFoundError
| PermissionError
| OSError (errno : Z)
| ValueError
| AttributeError
| ModuleNotFoundError
| TimeoutError
| CancelledError
| UserError (tag : string)
| ExceptionGroup (errors : list exn).
#[local] Set Elimination Schemes.

(** The result of running a function to completion. *)
Inductive outcome : Type :=
| Returned
| Raised (e : exn).

(** ** Text streams: what [readline] returns

    [open_file(log_file)] opens in text mode with [newline=None]: the three
    terminators LF, CR and CR LF end a line and are all handed to the
    caller as a single LF.  At the end of the available data a pending line
    without terminator is returned as it is. *)
Module Text.

Definition LF : ascii := "010"%char.
Definition CR : ascii := "013"%char.

Definition is_LF (c : ascii) : bool := Ascii.eqb c LF.
Definition is_CR (c : ascii) : bool := Ascii.eqb c CR.

Definition newline : string := String LF EmptyString.

(** [skip n s] is [s[n:]]. *)
Fixpoint skip (n : nat) (s : string) : string :=
  match n, s with
  | O, _ => s
  | S _, EmptyString => EmptyString
  | S k, String _ rest => skip k rest
  end.

(** One [readline] on the data that follows the stream position: the line
    returned and the number of characters consumed.  The empty line means
    end of stream. *)
Fixpoint readline_from (data : string) : string * nat :=
  match data with
  | EmptyString => (EmptyString, 0)
  | String c rest =>
      if is_LF c then (newline, 1)
      else if is_CR c then
        match rest with
        | String c' _ => if is_LF c' then (newline, 2) else (newline, 1)
        | EmptyString => (newline, 1)
        end
      else let '(l, n) := readline_from rest in (String c l, S n)
  end.

(** Every line that iterating over the stream yields, terminators kept
    (what repeating [readline] until it returns the empty string gives). *)
Fixpoint lines_of (data : string) : list string :=
  match data with
  | EmptyString => []
  | String c rest =>
      if is_LF c then newline :: lines_of rest
      else if is_CR c then
        match rest with
        | String c' rest' =>
            if is_LF c' then newline :: lines_of rest'
            else newline :: lines_of rest
        | EmptyString => [newline]
        end
      else match lines_of rest with
           | [] => [String c EmptyString]
           | l :: ls => String c l :: ls
           end
  end.

(** The text that the stream hands out: the data with every terminator
    replaced by LF. *)
Fixpoint translate (data : string) : string :=
  match data with
  | EmptyString => EmptyString
  | String c rest =>
      if is_LF c then String LF (translate rest)
      else if is_CR c then
        match rest with
        | String c' rest' =>
            if is_LF c' then String LF (translate rest')
            else String LF (translate rest)
        | EmptyString => newline
        end
      else String c (translate rest)
  end.

(** Concatenation of a list of lines. *)
Definition concat_lines (ls : list string) : string :=
  fold_right String.append EmptyString ls.

(** A line body: no terminator character inside. *)
Fixpoint no_terminator (s : string) : bool :=
  match s with
  | EmptyString => true
  | String c rest => negb (is_LF c) && negb (is_CR c) && no_terminator rest
  end.

(** [ends_with_newline s]: the last character of [s] is LF. *)
Fixpoint ends_with_newline (s : string) : bool :=
  match s with
  | EmptyString => false
  | String c EmptyString => is_LF c
  | String _ rest => ends_with_newline rest
  end.

(** [chop s] is [s[:-1]]. *)
Fixpoint chop (s : string) : string :=
  match s with
  | EmptyString => EmptyString
  | String _ EmptyString => EmptyString
  | String c rest => String c (chop rest)
  end.

(** The lines to deliver as the specification words them: a line is
    delivered once its terminator is there, and without the terminator; the
    text after the last terminator is held back. *)
Definition spec_delivered_lines (data : string) : list string :=
  omap (fun l => if ends_with_newline l then Some (chop l) else None)
       (lines_of data).

(** The file made of the given line bodies, each followed by LF. *)
Fixpoint join_terminated (ls : list string) : string :=
  match ls with
  | [] => EmptyString
  | l :: rest => l +:+ newline +:+ join_terminated rest
  end.

(** The three line terminators of the text mode. *)
Inductive terminator : Type :=
| TermLF
| TermCR
| TermCRLF.

Definition terminator_text (t : terminator) : string :=
  match t with
  | TermLF => String LF EmptyString
  | TermCR => String CR EmptyString
  | TermCRLF => String CR (String LF EmptyString)
  end.

(** The file made of the given complete lines, each a body followed by
    its terminator. *)
Fixpoint join_lines (ls : list (string * terminator)) : string :=
  match ls with
  | [] => EmptyString
  | (body, t) :: rest => body +:+ terminator_text t +:+ join_lines rest
  end.

(** The lines are the lines of the file they make: no terminator
    character inside a body, and no line ended by CR is followed by an
    empty line ended by LF (the two are one line, ended by CR LF). *)
Fixpoint well_split (ls : list (string * terminator)) : bool :=
  match ls with
  | [] => true
  | (body, t) :: rest =>
      no_terminator body
      && match t, rest with
         | TermCR, (EmptyString, TermLF) :: _ => false
         | _, _ => true
         end
      && well_split rest
  end.

(** The file is empty or ends with a line terminator: it consists of
    complete lines. *)
Fixpoint complete (data : string) : bool :=
  match data with
  | EmptyString => true
  | String c EmptyString => is_LF c || is_CR c
  | String _ rest => complete rest
  end.

(** The complete lines of a file, each with its terminator; what follows
    the last terminator is left out. *)
Fixpoint split_lines (data : string) : list (string * terminator) :=
  match data with
  | EmptyString => []
  | String c rest =>
      if is_LF c then (EmptyString, TermLF) :: split_lines rest
      else if is_CR c then
        match rest with
        | String c' rest' =>
            if is_LF c' then (EmptyString, TermCRLF) :: split_lines rest'
            else (EmptyString, TermCR) :: split_lines rest
        | EmptyString => [(EmptyString, TermCR)]
        end
      else match split_lines rest with
           | [] => []
           | (body, t) :: ls => (String c body, t) :: ls
           end
  end.


(** Python's [str.isspace] on the characters of a single-byte text. *)
Definition isspace (c : ascii) : bool :=
  let n := nat_of_ascii c in
  (Nat.leb 9 n && Nat.leb n 13) || (Nat.leb 28 n && Nat.leb n 32).

Fixpoint lstrip (s : string) : string :=
  match s with
  | EmptyString => EmptyString
  | String c rest => if isspace c then lstrip rest else s
  end.

Fixpoint rstrip (s : string) : string :=
  match s with
  | EmptyString => EmptyString
  | String c rest =>
      match rstrip rest with
      | EmptyString => if isspace c then EmptyString else String c EmptyString
      | r => String c r
      end
  end.

(** [str.strip()] *)
Definition strip (s : string) : string := rstrip (lstrip s).

End Text.

(** ** The operating system as seen by the tracker *)
Module OS.

(** The ten fields of [os.stat_result] that take part in its tuple
    comparison, in tuple order. *)
Record stat_result : Type := mk_stat {
  st_mode : Z;
  st_ino : Z;
  st_dev : Z;
  st_nlink : Z;
  st_uid : Z;
  st_gid : Z;
  st_size : Z;
  st_atime : Z;
  st_mtime : Z;
  st_ctime : Z
}.

#[global] Instance stat_result_eq_dec : EqDecision stat_result.
Proof. solve_decision. Defined.

(** FileIdentity: (device id, inode number). *)
Abbreviation file_id := (Z * Z)%type.

Definition identity (s : stat_result) : file_id := (st_dev s, st_ino s).

(** What the file system keeps for one underlying file. *)
Record inode : Type := mk_inode {
  i_mode : Z;
  i_nlink : Z;
  i_uid : Z;
  i_gid : Z;
  i_atime : Z;
  i_mtime : Z;
  i_ctime : Z;
  i_seekable : bool;      (* regular file: true; FIFO: false *)
  i_data : string
}.

Record fs : Type := mk_fs {
  dirents : gmap string file_id;   (* path -> identity *)
  inodes : gmap file_id inode;     (* identity -> file *)
  faults : gmap string exn         (* paths whose lookup fails, and how *)
}.

(** An open file description. *)
Record ofd : Type := mk_ofd {
  ofd_id : file_id;
  ofd_pos : nat
}.

(** The process: the file system it sees and its open descriptors. *)
Record proc : Type := mk_proc {
  p_fs : fs;
  p_fds : gmap nat ofd;
  p_next : nat
}.

(** The object bound to [log_io]. *)
Record AsyncFile : Type := mk_file {
  name : string;
  fileno : nat
}.

Definition stat_of (id : file_id) (i : inode) : stat_result :=
  {| st_mode := i_mode i; st_ino := id.2; st_dev := id.1;
     st_nlink := i_nlink i; st_uid := i_uid i; st_gid := i_gid i;
     st_size := Z.of_nat (String.length (i_data i));
     st_atime := i_atime i; st_mtime := i_mtime i; st_ctime := i_ctime i |}.

(** Path resolution, shared by [os.stat(path)] and [open]. *)
Definition resolve (w : fs) (path : string) : exn + (file_id * inode) :=
  match faults w !! path with
  | Some e => inl e
  | None =>
      match dirents w !! path with
      | None => inl FileNotFoundError
      | Some id =>
          match inodes w !! id with
          | None => inl FileNotFoundError
          | Some i => inr (id, i)
          end
      end
  end.

(** [os.stat(path)] *)
Definition stat_path (w : fs) (path : string) : exn + stat_result :=
  match resolve w path with
  | inl e => inl e
  | inr (id, i) => inr (stat_of id i)
  end.

(** The file behind an open descriptor; a closed file object raises
    [ValueError] on every operation. *)
Definition file_of (p : proc) (f : AsyncFile) : exn + (ofd * inode) :=
  match p_fds p !! fileno f with
  | None => inl ValueError
  | Some d =>
      match inodes (p_fs p) !! ofd_id d with
      | None => inl (OSError 9)
      | Some i => inr (d, i)
      end
  end.

(** [os.stat(log_io.fileno())] *)
Definition stat_fd (p : proc) (f : AsyncFile) : exn + stat_result :=
  match file_of p f with
  | inl e => inl e
  | inr (d, i) => inr (stat_of (ofd_id d) i)
  end.

(** [log_io.seekable()] *)
Definition seekable (p : proc) (f : AsyncFile) : exn + bool :=
  match file_of p f with
  | inl e => inl e
  | inr (_, i) => inr (i_seekable i)
  end.

(** [await log_io.tell()] *)
Definition tell (p : proc) (f : AsyncFile) : exn + nat :=
  match file_of p f with
  | inl e => inl e
  | inr (d, _) => inr (ofd_pos d)
  end.

Definition set_pos (p : proc) (fd : nat) (d : ofd) (pos : nat) : proc :=
  {| p_fs := p_fs p;
     p_fds := <[fd := {| ofd_id := ofd_id d; ofd_pos := pos |}]> (p_fds p);
     p_next := p_next p |}.

(** [await log_io.seek(0)] *)
Definition seek_start (p : proc) (f : AsyncFile) : exn + proc :=
  match file_of p f with
  | inl e => inl e
  | inr (d, _) => inr (set_pos p (fileno f) d 0)
  end.

(** [await log_io.seek(0, os.SEEK_END)] *)
Definition seek_end (p : proc) (f : AsyncFile) : exn + proc :=
  match file_of p f with
  | inl e => inl e
  | inr (d, i) => inr (set_pos p (fileno f) d (String.length (i_data i)))
  end.

(** [await log_io.readline()] *)
Definition readline (p : proc) (f : AsyncFile) : exn + (string * proc) :=
  match file_of p f with
  | inl e => inl e
  | inr (d, i) =>
      let '(line, n) := Text.readline_from (Text.skip (ofd_pos d) (i_data i)) in
      inr (line, set_pos p (fileno f) d (ofd_pos d + n))
  end.

(** [await open_file(path)]: a fresh descriptor at offset zero. *)
Definition open_file (p : proc) (path : string) : exn + (AsyncFile * proc) :=
  match resolve (p_fs p) path with
  | inl e => inl e
  | inr (id, _) =>
      inr ({| name := path; fileno := p_next p |},
           {| p_fs := p_fs p;
              p_fds := <[p_next p := {| ofd_id := id; ofd_pos := 0 |}]> (p_fds p);
              p_next := S (p_next p) |})
  end.

(** [await log_io.aclose()]: releases the descriptor when the file is
    still open ([true]), and does nothing on a closed file ([false]). *)
Definition aclose (p : proc) (f : AsyncFile) : bool * proc :=
  match p_fds p !! fileno f with
  | None => (false, p)
  | Some _ =>
      (true, {| p_fs := p_fs p; p_fds := delete (fileno f) (p_fds p);
                p_next := p_next p |})
  end.

(** What other processes do to the file system between two steps of the
    tracker. *)
Inductive env_action : Type :=
| Append (path : string) (data : string)
| Rewrite (path : string) (data : string)     (* open(path, "w"); write *)
| SetTimes (path : string) (atime mtime ctime : Z)
| Unlink (path : string)
| Create (path : string) (id : file_id) (i : inode)
| SetFault (path : string) (e : option exn).

Definition with_inode (w : fs) (path : string) (g : inode -> inode) : fs :=
  match dirents w !! path with
  | None => w
  | Some id =>
      {| dirents := dirents w; inodes := alter g id (inodes w);
         faults := faults w |}
  end.

Definition set_data (data : string) (i : inode) : inode :=
  {| i_mode := i_mode i; i_nlink := i_nlink i; i_uid := i_uid i;
     i_gid := i_gid i; i_atime := i_atime i; i_mtime := i_mtime i;
     i_ctime := i_ctime i; i_seekable := i_seekable i; i_data := data |}.

Definition set_times (a m c : Z) (i : inode) : inode :=
  {| i_mode := i_mode i; i_nlink := i_nlink i; i_uid := i_uid i;
     i_gid := i_gid i; i_atime := a; i_mtime := m; i_ctime := c;
     i_seekable := i_seekable i; i_data := i_data i |}.

Definition env_apply (a : env_action) (w : fs) : fs :=
  match a with
  | Append path data => with_inode w path (fun i => set_data (i_data i +:+ data) i)
  | Rewrite path data => with_inode w path (set_data data)
  | SetTimes path a m c => with_inode w path (set_times a m c)
  | Unlink path =>
      {| dirents := delete path (dirents w); inodes := inodes w;
         faults := faults w |}
  | Create path id i =>
      {| dirents := <[path := id]> (dirents w);
         inodes := match inodes w !! id with
                   | Some _ => inodes w
                   | None => <[id := i]> (inodes w)
                   end;
         faults := faults w |}
  | SetFault path None =>
      {| dirents := dirents w; inodes := inodes w;
         faults := delete path (faults w) |}
  | SetFault path (Some e) =>
      {| dirents := dirents w; inodes := inodes w;
         faults := <[path := e]> (faults w) |}
  end.

Definition env_proc (a : env_action) (p : proc) : proc :=
  {| p_fs := env_apply a (p_fs p); p_fds := p_fds p; p_next := p_next p |}.

Definition env_procs (l : list env_action) (p : proc) : proc :=
  fold_left (fun p a => env_proc a p) l p.

(** Replace the metadata and the data of one underlying file. *)
Definition change_inode (p : proc) (id : file_id) (i : inode) : proc :=
  {| p_fs := {| dirents := dirents (p_fs p);
                inodes := <[id := i]> (inodes (p_fs p));
                faults := faults (p_fs p) |};
     p_fds := p_fds p; p_next := p_next p |}.

End OS.

(** ** [_FileState] and [_check_file_state] *)

Inductive _FileState : Type :=
| NOCHANGE
| TRUNCATED
| DELETED
| DIFFERENT.

(** [_check_file_state(log_io)]: only [FileNotFoundError] from the stat of
    the path is caught; the two [stat_result] tuples are compared whole.
    The two tuples come from two system calls (l.38 and l.41): [between]
    is what other processes do to the files after the first and before
    the second. *)
Definition _check_file_state (p : OS.proc) (between : list OS.env_action)
    (log_io : OS.AsyncFile) : exn + _FileState :=
  match OS.stat_path (OS.p_fs p) (OS.name log_io) with
  | inl FileNotFoundError => inr DELETED
  | inl e => inl e
  | inr same_name_file_stat =>
      let p := OS.env_procs between p in
      match OS.stat_fd p log_io with
      | inl e => inl e
      | inr file_stat =>
          if bool_decide (same_name_file_stat = file_stat) then
            match OS.seekable p log_io with
            | inl e => inl e
            | inr false => inr NOCHANGE
            | inr true =>
                match OS.tell p log_io with
                | inl e => inl e
                | inr pos =>
                    if (OS.st_size file_stat <? Z.of_nat pos)%Z
                    then inr TRUNCATED
                    else inr NOCHANGE
                end
            end
          else inr DIFFERENT
      end
  end.

(** ** [track_file] *)
Module Tracker.

(** What a tracker does that an observer can see. *)
Inductive event : Type :=
| EvOpen (fd : nat)                     (* open_file returned this file *)
| EvClose (fd : nat) (released : bool)  (* aclose; did it release it? *)
| EvSeek (fd : nat) (pos : nat)
| EvCall (idx : nat) (line : string)    (* line_parser(line) *)
| EvAwait (idx : nat) (line : string).  (* await line_parser(line) *)

(** The [await] at which the coroutine is suspended. *)
Inductive pc : Type :=
| AtOpen        (* l.81  log_io = await open_file(log_file) *)
| AtSeekEnd     (* l.85  await log_io.seek(0, os.SEEK_END) *)
| AtCheck       (* l.87  await _check_file_state(log_io) *)
| AtRead        (* l.89  async for line in log_io *)
| AtSeek0       (* l.99  await log_io.seek(0) *)
| AtReclose     (* l.104 await log_io.aclose() *)
| AtReopen      (* l.105 log_io = await open_file(log_file) *)
| AtSleep       (* l.111 await asyncio.sleep(poll_delay) *)
| Finished (o : outcome).

(** What the event loop or the environment does next. *)
Inductive input : Type :=
| Resume                       (* the awaited operation completes *)
| Cancel                       (* task.cancel() from outside *)
| Expire                       (* the deadline of asyncio.timeout(timeout) *)
| Env (a : OS.env_action)      (* another process changes the file system *)
| Race (between : list OS.env_action).
    (* the awaited operation completes while other processes change the
       file system: between the two stats of the classifier *)

Record tracker : Type := mk_tracker {
  t_pc : pc;
  t_io : option OS.AsyncFile;   (* the variable log_io *)
  t_trace : list event
}.

Definition start : tracker :=
  {| t_pc := AtOpen; t_io := None; t_trace := [] |}.

Section WithStore.

(** The state that the line parsers act on (the [output] list of the
    tests, a set of counters, ...). *)
Context {S : Type}.

(** A line parser: a callable, for which [asyncio.iscoroutinefunction]
    answers one way or the other; it may change the store and may raise. *)
Record handler : Type := mk_handler {
  iscoroutinefunction : bool;
  call : string -> S -> S * option exn
}.

Record config : Type := mk_config {
  log_file : string;
  line_parsers : list handler;
  poll_delay : Z;
  tail : bool;
  timeout : option Z
}.

Record world : Type := mk_world {
  w_proc : OS.proc;
  w_store : S
}.

Definition invocation (idx : nat) (lp : handler) (line : string) : event :=
  if iscoroutinefunction lp then EvAwait idx line else EvCall idx line.

(** l.90-94: the inner [for line_parser in line_parsers] loop. *)
Fixpoint dispatch (idx : nat) (lps : list handler) (line : string) (s : S)
  : list event * S * option exn :=
  match lps with
  | [] => ([], s, None)
  | lp :: rest =>
      match call lp line s with
      | (s', Some e) => ([invocation idx lp line], s', Some e)
      | (s', None) =>
          let '(evs, s'', r) := dispatch (Datatypes.S idx) rest line s' in
          (invocation idx lp line :: evs, s'', r)
      end
  end.

(** One full pass over the parsers for one line: what is invoked, in
    order, and what it does to the store. *)
Definition invocations_from (idx : nat) (lps : list handler) (line : string)
  : list event :=
  imap (fun i lp => invocation (idx + i) lp line) lps.

Definition invocations (lps : list handler) (line : string) : list event :=
  invocations_from 0 lps line.

Definition apply_all (lps : list handler) (line : string) (s : S) : S :=
  fold_left (fun s lp => (call lp line s).1) lps s.

Definition apply_lines (lps : list handler) (lines : list string) (s : S) : S :=
  fold_left (fun s line => apply_all lps line s) lines s.

(** The parser returns normally on this line, whatever the store. *)
Definition returns_on (line : string) (lp : handler) : Prop :=
  forall s, (call lp line s).2 = None.

Definition goto (t : tracker) (l : pc) : tracker :=
  {| t_pc := l; t_io := t_io t; t_trace := t_trace t |}.

Definition emit (t : tracker) (evs : list event) : tracker :=
  {| t_pc := t_pc t; t_io := t_io t; t_trace := t_trace t ++ evs |}.

Definition bind_io (t : tracker) (f : OS.AsyncFile) : tracker :=
  {| t_pc := t_pc t; t_io := Some f; t_trace := t_trace t |}.

Definition with_proc (w : world) (p : OS.proc) : world :=
  {| w_proc := p; w_store := w_store w |}.

(** l.112-114: the [finally] clause, then the exception leaves
    [track_file]. *)
Definition finally (w : world) (t : tracker) (o : outcome) : world * tracker :=
  match t_io t with
  | None => (w, goto t (Finished o))
  | Some f =>
      let '(released, p') := OS.aclose (w_proc w) f in
      (with_proc w p',
       goto (emit t [EvClose (OS.fileno f) released]) (Finished o))
  end.

(** l.88-110: what the loop does with the answer of the classifier. *)
Definition on_file_state (r : exn + _FileState) (w : world) (t : tracker)
  : world * tracker :=
  match r with
  | inl e => finally w t (Raised e)
  | inr NOCHANGE => (w, goto t AtRead)
  | inr TRUNCATED => (w, goto t AtSeek0)
  | inr DIFFERENT => (w, goto t AtReclose)
  | inr DELETED => (w, goto t AtSleep)
  end.

(** The code between the current [await] and the next one. *)
Definition resume (cfg : config) (w : world) (t : tracker) : world * tracker :=
  match t_pc t, t_io t with
  | AtOpen, _ =>
      match OS.open_file (w_proc w) (log_file cfg) with
      | inl e => (w, goto t (Finished (Raised e)))
      | inr (f, p') =>
          let w' := with_proc w p' in
          let t' := bind_io (emit t [EvOpen (OS.fileno f)]) f in
          if tail cfg then
            match OS.seekable p' f with
            | inl e => finally w' t' (Raised e)
            | inr true => (w', goto t' AtSeekEnd)
            | inr false => (w', goto t' AtCheck)
            end
          else (w', goto t' AtCheck)
      end
  | AtSeekEnd, Some f =>
      match OS.seek_end (w_proc w) f, OS.file_of (w_proc w) f with
      | inr p', inr (_, i) =>
          (with_proc w p',
           goto (emit t [EvSeek (OS.fileno f) (String.length (OS.i_data i))])
                AtCheck)
      | inl e, _ | _, inl e => finally w t (Raised e)
      end
  | AtCheck, Some f =>
      on_file_state (_check_file_state (w_proc w) [] f) w t
  | AtRead, Some f =>
      match OS.readline (w_proc w) f with
      | inl e => finally w t (Raised e)
      | inr (EmptyString, p') => (with_proc w p', goto t AtSleep)
      | inr (line, p') =>
          let '(evs, s', r) := dispatch 0 (line_parsers cfg) line (w_store w) in
          let w' := {| w_proc := p'; w_store := s' |} in
          match r with
          | None => (w', emit t evs)
          | Some e => finally w' (emit t evs) (Raised e)
          end
      end
  | AtSeek0, Some f =>
      match OS.seek_start (w_proc w) f with
      | inl e => finally w t (Raised e)
      | inr p' => (with_proc w p', goto (emit t [EvSeek (OS.fileno f) 0]) AtSleep)
      end
  | AtReclose, Some f =>
      let '(released, p') := OS.aclose (w_proc w) f in
      (with_proc w p', goto (emit t [EvClose (OS.fileno f) released]) AtReopen)
  | AtReopen, Some _ =>
      match OS.open_file (w_proc w) (log_file cfg) with
      | inl e => finally w t (Raised e)
      | inr (f', p') =>
          (with_proc w p',
           goto (bind_io (emit t [EvOpen (OS.fileno f')]) f') AtSleep)
      end
  | AtSleep, Some _ => (w, goto t AtCheck)
  | Finished _, _ => (w, t)
  | _, None =>
      (* not reached: [log_io] is bound before the [try] block is entered *)
      (w, goto t (Finished (Raised ValueError)))
  end.

(** The same code when other processes change the files while it runs:
    in the classifier the changes fall between the two stats; everywhere
    else the awaited operation is one system call, and they come before
    it. *)
Definition resume_racing (cfg : config) (between : list OS.env_action)
    (w : world) (t : tracker) : world * tracker :=
  let w' := with_proc w (OS.env_procs between (w_proc w)) in
  match t_pc t, t_io t with
  | AtCheck, Some f =>
      on_file_state (_check_file_state (w_proc w) between f) w' t
  | _, _ => resume cfg w' t
  end.

(** [CancelledError] thrown at the current [await]. *)
Definition throw_cancel (w : world) (t : tracker) (o : outcome)
  : world * tracker :=
  match t_pc t with
  | Finished _ => (w, t)
  | AtOpen => (w, goto t (Finished o))
  | _ => finally w t o
  end.

(** One input to a tracker.  [asyncio.timeout(None)] never expires; with a
    deadline, the cancellation it sends leaves the context manager as
    [TimeoutError]. *)
Definition step (cfg : config) (i : input) (wt : world * tracker)
  : world * tracker :=
  let '(w, t) := wt in
  match i with
  | Resume => resume cfg w t
  | Cancel => throw_cancel w t (Raised CancelledError)
  | Expire =>
      match timeout cfg with
      | None => (w, t)
      | Some _ => throw_cancel w t (Raised TimeoutError)
      end
  | Env a => (with_proc w (OS.env_proc a (w_proc w)), t)
  | Race between => resume_racing cfg between w t
  end.

(** [track_file(log_file, line_parsers, poll_delay, tail, timeout)] under
    a sequence of inputs. *)
Definition exec (cfg : config) (ins : list input) (wt : world * tracker)
  : world * tracker :=
  fold_left (fun st i => step cfg i st) ins wt.

Definition track_file (cfg : config) (ins : list input) (w : world)
  : world * tracker :=
  exec cfg ins (w, start).

(** The lines handed to the parsers, in order of invocation. *)
Definition delivered (tr : list event) : list (nat * string) :=
  omap (fun ev => match ev with
                  | EvCall i l | EvAwait i l => Some (i, l)
                  | _ => None
                  end) tr.

(** The files of this tracker that are open after a trace. *)
Fixpoint live_after (acc : list nat) (tr : list event) : list nat :=
  match tr with
  | [] => acc
  | EvOpen fd :: tr' => live_after (acc ++ [fd]) tr'
  | EvClose fd true :: tr' =>
      live_after (filter (fun x => x ≠ fd) acc) tr'
  | _ :: tr' => live_after acc tr'
  end.


(** How many files the trace opened, and how many it released. *)
Fixpoint opens (tr : list event) : nat :=
  match tr with
  | [] => 0
  | EvOpen _ :: tr' => Datatypes.S (opens tr')
  | _ :: tr' => opens tr'
  end.

Fixpoint releases (tr : list event) : nat :=
  match tr with
  | [] => 0
  | EvClose _ true :: tr' => Datatypes.S (releases tr')
  | _ :: tr' => releases tr'
  end.



(** Events that neither open nor release a file. *)
Definition neutral (evs : list event) : Prop :=
  (forall acc, live_after acc evs = acc) /\ opens evs = 0 /\ releases evs = 0.



(** The handle is open on the file that its path names. *)
Definition attached (p : OS.proc) (f : OS.AsyncFile) (d : OS.ofd) (i : OS.inode) : Prop :=
  OS.file_of p f = inr (d, i) /\
  OS.resolve (OS.p_fs p) (OS.name f) = inr (OS.ofd_id d, i).

(** The tracker is at [l] with store [s] and trace [tr]; [log_io] is [f],
    attached to a file holding [data], at offset [pos]. *)
Definition Holds (st : world * tracker) (l : pc) (s : S)
    (tr : list event) (f : OS.AsyncFile) (data : string) (pos : nat) : Prop :=
  t_pc st.2 = l /\ w_store st.1 = s /\ t_trace st.2 = tr /\
  t_io st.2 = Some f /\
  exists d i, attached (w_proc st.1) f d i /\ OS.i_data i = data /\ OS.ofd_pos d = pos.

(** Every parser returns normally on each of these lines. *)
Definition all_return (cfg : config) (lines : list string) : Prop :=
  Forall (fun line => Forall (returns_on line) (line_parsers cfg)) lines.

(** Where a tracker with nothing left to read is found. *)
Definition idle_pc (l : pc) : Prop := l = AtSleep \/ l = AtCheck \/ l = AtRead.

End WithStore.

Arguments handler : clear implicits.
Arguments config : clear implicits.
Arguments world : clear implicits.

End Tracker.

(** ** [track_async] and [track]

    [track_async] creates one task per file inside an [asyncio.TaskGroup]
    inside [asyncio.timeout(timeout)], and then waits in
    [TaskGroup.__aexit__] until every task is done.  The event loop runs
    one callback at a time; which one comes next is the schedule. *)
Module Supervisor.

Import Tracker.

(** What the event loop runs next. *)
Inductive sched : Type :=
| Run (i : nat)                  (* the i-th task, up to its next await *)
| RunRacing (i : nat) (between : list OS.env_action)
    (* the same, while other processes change the files *)
| Callback (i : nat)             (* TaskGroup._on_task_done of the i-th task *)
| Wake                           (* the task waiting in TaskGroup.__aexit__ *)
| Deadline                       (* the timer of asyncio.timeout(timeout) *)
| External (a : OS.env_action).  (* another process changes the files *)

Section WithStore.

Context {S : Type}.

(** One task of the group: [track_file(log_file, line_parsers, poll_delay,
    tail, timeout=None)]. *)
Record task : Type := mk_task {
  tk_cfg : config S;
  tk_state : tracker
}.

(** The task group inside the timeout context, seen from the task that
    runs [track_async]. *)
Record group : Type := mk_group {
  g_world : world S;
  g_timeout : option Z;
  g_tasks : list task;
  g_pending : gset nat;   (* TaskGroup._tasks: done callback not yet run *)
  g_aborting : bool;      (* TaskGroup._aborting: every unfinished task
                             has been sent cancel() *)
  g_errors : list exn;    (* TaskGroup._errors *)
  g_cancel : bool;        (* cancel() was called on the waiting task and
                             its CancelledError is still to be thrown *)
  g_propagate : bool;     (* propagate_cancellation_error is set *)
  g_expired : bool;       (* the timer has fired: state EXPIRING *)
  g_result : option outcome  (* how [track_async] ended, once it has *)
}.

Definition is_finished (t : tracker) : bool :=
  match t_pc t with
  | Finished _ => true
  | _ => false
  end.

Definition all_finished (g : group) : bool :=
  forallb (fun tk => is_finished (tk_state tk)) (g_tasks g).

(** [while self._tasks] *)
Definition none_pending (g : group) : bool :=
  bool_decide (g_pending g = ∅).

Definition set_world (g : group) (w : world S) : group :=
  {| g_world := w; g_timeout := g_timeout g; g_tasks := g_tasks g;
     g_pending := g_pending g; g_aborting := g_aborting g;
     g_errors := g_errors g; g_cancel := g_cancel g;
     g_propagate := g_propagate g; g_expired := g_expired g;
     g_result := g_result g |}.

Definition set_task (g : group) (w : world S) (i : nat) (tk : task) : group :=
  {| g_world := w; g_timeout := g_timeout g;
     g_tasks := <[i := tk]> (g_tasks g);
     g_pending := g_pending g; g_aborting := g_aborting g;
     g_errors := g_errors g; g_cancel := g_cancel g;
     g_propagate := g_propagate g; g_expired := g_expired g;
     g_result := g_result g |}.

(** [self._tasks.discard(task)] *)
Definition discard (g : group) (i : nat) : group :=
  {| g_world := g_world g; g_timeout := g_timeout g; g_tasks := g_tasks g;
     g_pending := g_pending g ∖ {[i]}; g_aborting := g_aborting g;
     g_errors := g_errors g; g_cancel := g_cancel g;
     g_propagate := g_propagate g; g_expired := g_expired g;
     g_result := g_result g |}.

(** [self._errors.append(exc)] *)
Definition record_error (g : group) (e : exn) : group :=
  {| g_world := g_world g; g_timeout := g_timeout g; g_tasks := g_tasks g;
     g_pending := g_pending g; g_aborting := g_aborting g;
     g_errors := g_errors g ++ [e]; g_cancel := g_cancel g;
     g_propagate := g_propagate g; g_expired := g_expired g;
     g_result := g_result g |}.

(** [TaskGroup._abort]: [cancel()] is sent to every task that is not
    done.  A task that is not done while the group is aborting has
    therefore been sent [cancel()]. *)
Definition abort (g : group) : group :=
  {| g_world := g_world g; g_timeout := g_timeout g; g_tasks := g_tasks g;
     g_pending := g_pending g; g_aborting := true;
     g_errors := g_errors g; g_cancel := g_cancel g;
     g_propagate := g_propagate g; g_expired := g_expired g;
     g_result := g_result g |}.

(** [cancel()] on the task that waits in [__aexit__], or its
    [CancelledError] delivered. *)
Definition set_cancel (g : group) (b : bool) : group :=
  {| g_world := g_world g; g_timeout := g_timeout g; g_tasks := g_tasks g;
     g_pending := g_pending g; g_aborting := g_aborting g;
     g_errors := g_errors g; g_cancel := b;
     g_propagate := g_propagate g; g_expired := g_expired g;
     g_result := g_result g |}.

Definition set_propagate (g : group) : group :=
  {| g_world := g_world g; g_timeout := g_timeout g; g_tasks := g_tasks g;
     g_pending := g_pending g; g_aborting := g_aborting g;
     g_errors := g_errors g; g_cancel := g_cancel g;
     g_propagate := true; g_expired := g_expired g;
     g_result := g_result g |}.

Definition set_expired (g : group) : group :=
  {| g_world := g_world g; g_timeout := g_timeout g; g_tasks := g_tasks g;
     g_pending := g_pending g; g_aborting := g_aborting g;
     g_errors := g_errors g; g_cancel := g_cancel g;
     g_propagate := g_propagate g; g_expired := true;
     g_result := g_result g |}.

(** How the two context managers end once no task is left: the errors of
    the tasks as one group; else the cancellation that reached the
    waiting task, which [asyncio.timeout] turns into [TimeoutError] when
    its timer has fired; else a normal return. *)
Definition leave (g : group) : outcome :=
  match g_errors g with
  | _ :: _ => Raised (ExceptionGroup (g_errors g))
  | [] =>
      if g_propagate g then
        if g_expired g then Raised TimeoutError else Raised CancelledError
      else Returned
  end.

Definition finish (g : group) : group :=
  {| g_world := g_world g; g_timeout := g_timeout g; g_tasks := g_tasks g;
     g_pending := g_pending g; g_aborting := g_aborting g;
     g_errors := g_errors g; g_cancel := g_cancel g;
     g_propagate := g_propagate g; g_expired := g_expired g;
     g_result := Some (leave g) |}.

(** l.134-136: one task per item of [configs], in dictionary order. *)
Definition spawn (poll_delay : Z) (tail : bool)
    (item : string * list (handler S)) : task :=
  {| tk_cfg := {| log_file := item.1; line_parsers := item.2;
                  poll_delay := poll_delay; tail := tail; timeout := None |};
     tk_state := start |}.

(** l.132-136 up to the first [await] of [__aexit__]: with no task the
    loop [while self._tasks] is not entered and [track_async] returns. *)
Definition init (configs : list (string * list (handler S)))
    (poll_delay : Z) (tail : bool) (timeout : option Z) (w : world S) : group :=
  {| g_world := w; g_timeout := timeout;
     g_tasks := map (spawn poll_delay tail) configs;
     g_pending := list_to_set (seq 0 (length configs));
     g_aborting := false; g_errors := []; g_cancel := false;
     g_propagate := false; g_expired := false;
     g_result := match configs with [] => Some Returned | _ => None end |}.

(** A task runs from its [await] to the next one; a task that has been
    sent [cancel()] gets [CancelledError] there. *)
Definition run_task (i : nat) (between : option (list OS.env_action))
    (g : group) : group :=
  match g_tasks g !! i with
  | None => g
  | Some tk =>
      if is_finished (tk_state tk) then g
      else
        let input := if g_aborting g then Cancel
                     else match between with
                          | None => Resume
                          | Some b => Race b
                          end in
        let '(w', t') := step (tk_cfg tk) input (g_world g, tk_state tk) in
        set_task g w' i {| tk_cfg := tk_cfg tk; tk_state := t' |}
  end.

(** [TaskGroup._on_task_done], the done callback of a task: it runs once,
    after the task has ended.  An exception other than [CancelledError]
    is recorded, and the first one aborts the group and cancels the
    waiting task. *)
Definition on_task_done (i : nat) (g : group) : group :=
  match g_tasks g !! i with
  | None => g
  | Some tk =>
      if bool_decide (i ∈ g_pending g) then
        match t_pc (tk_state tk) with
        | Finished (Raised CancelledError) => discard g i
        | Finished Returned => discard g i
        | Finished (Raised e) =>
            let g' := record_error (discard g i) e in
            if g_aborting g' then g' else set_cancel (abort g') true
        | _ => g
        end
      else g
  end.

(** The task that waits in [__aexit__] runs when the future it awaits
    has its result (no task is left) or when it has been cancelled.  A
    [CancelledError] that finds the group not aborting is kept for later
    and aborts the group.  Then the loop goes on while tasks are left. *)
Definition wake (g : group) : group :=
  match g_result g with
  | Some _ => g
  | None =>
      if g_cancel g then
        let g' := if g_aborting g then set_cancel g false
                  else abort (set_propagate (set_cancel g false)) in
        if none_pending g' then finish g' else g'
      else if none_pending g then finish g
      else g
  end.

(** The timer of [asyncio.timeout]: it cancels the waiting task, once;
    there is none without a timeout, and [__aexit__] of the timeout
    removes it. *)
Definition expire (g : group) : group :=
  match g_timeout g, g_result g with
  | Some _, None =>
      if g_expired g then g else set_expired (set_cancel g true)
  | _, _ => g
  end.

Definition sched_step (ev : sched) (g : group) : group :=
  match ev with
  | Run i => run_task i None g
  | RunRacing i between => run_task i (Some between) g
  | Callback i => on_task_done i g
  | Wake => wake g
  | Deadline => expire g
  | External a =>
      set_world g (with_proc (g_world g) (OS.env_proc a (w_proc (g_world g))))
  end.

Definition sched_exec (sch : list sched) (g : group) : group :=
  fold_left (fun g ev => sched_step ev g) sch g.

(** [track_async(configs, poll_delay, tail, timeout)] under a schedule. *)
Definition track_async (configs : list (string * list (handler S)))
    (poll_delay : Z) (tail : bool) (timeout : option Z)
    (sch : list sched) (w : world S) : group :=
  sched_exec sch (init configs poll_delay tail timeout w).

(** [track(...)]: [asyncio.run(track_async(...))]; [None] while it runs. *)
Definition track (configs : list (string * list (handler S)))
    (poll_delay : Z) (tail : bool) (timeout : option Z)
    (sch : list sched) (w : world S) : option outcome :=
  g_result (track_async configs poll_delay tail timeout sch w).


(** The schedule lets task [j] run. *)
Definition runs (j : nat) (sch : list sched) : Prop :=
  In (Run j) sch \/ exists between, In (RunRacing j between) sch.



(** What every reachable group satisfies. *)
Definition group_inv (g : group) : Prop :=
  (* a done callback has run only for a finished task of the group *)
  (forall i, i < length (g_tasks g) -> (i ∉ g_pending g) ->
     exists tk, g_tasks g !! i = Some tk /\ is_finished (tk_state tk) = true) /\
  (forall i, i ∈ g_pending g -> i < length (g_tasks g)) /\
  (* the errors are those of the tasks whose callback has run *)
  (forall e, In e (g_errors g) <->
     e <> CancelledError /\
     exists i tk, g_tasks g !! i = Some tk /\ (i ∉ g_pending g) /\
                  t_pc (tk_state tk) = Finished (Raised e)) /\
  (* why the group aborts, and why the waiting task is cancelled *)
  (g_aborting g = true -> g_errors g <> [] \/ g_propagate g = true) /\
  (g_errors g <> [] -> g_aborting g = true) /\
  (g_propagate g = true -> g_aborting g = true /\ g_expired g = true) /\
  (g_cancel g = true -> g_aborting g = true \/ g_expired g = true) /\
  (g_expired g = true -> g_timeout g <> None) /\
  (g_expired g = true -> g_errors g = [] ->
     (g_result g = None /\ g_cancel g = true) \/ g_propagate g = true) /\
  (* after the end *)
  (forall o, g_result g = Some o -> g_pending g = ∅ /\ o = leave g).

End WithStore.

Arguments task : clear implicits.
Arguments group : clear implicits.

End Supervisor.

(** ** [log_parser.cli] *)
Module Cli.

(** The interpreter state that loading parsers can change. *)
Record interp {M : Type} : Type := mk_interp {
  sys_path : list string;
  heap : M
}.
Arguments interp : clear implicits.

Definition set_sys_path {M : Type} (st : interp M) (l : list string)
  : interp M :=
  {| sys_path := l; heap := heap st |}.

(** l.42: the list without the last occurrence of [x]; [None] when there
    is none ([next] raises [StopIteration]). *)
Fixpoint remove_last (x : string) (l : list string) : option (list string) :=
  match l with
  | [] => None
  | y :: rest =>
      match remove_last x rest with
      | Some rest' => Some (y :: rest')
      | None => if String.eqb y x then Some rest else None
      end
  end.

(** [configs[log_file].extend(line_parsers)] on a [defaultdict(list)]. *)
Fixpoint extend {H : Type} (configs : list (string * list H))
    (log_file : string) (line_parsers : list H) : list (string * list H) :=
  match configs with
  | [] => [(log_file, line_parsers)]
  | (k, v) :: rest =>
      if String.eqb k log_file then (k, v ++ line_parsers) :: rest
      else (k, v) :: extend rest log_file line_parsers
  end.

Section Loader.

Context {S M Mod : Type}.

(** The file system and the import system, as the loader sees them. *)
Variable realpath : string -> string.
Variable isdir : string -> bool.
Variable glob_py : string -> list string.   (* glob(join(parser, "*.py")) *)
Variable dirname : string -> string.
Variable module_name : string -> string.    (* basename(splitext(p)[0]) *)
Variable import_module : string -> interp M -> interp M * (exn + Mod).
Variable getattr_items :
  Mod -> string -> exn + list (string * list (Tracker.handler S)).

Abbreviation configs_t := (list (string * list (Tracker.handler S))).

(** l.40-45: the [finally] clause. *)
Definition restore_path (path_addition : string) (st : interp M) : interp M :=
  match remove_last path_addition (sys_path st) with
  | Some l => set_sys_path st l
  | None => st
  end.

(** l.35-39 *)
Fixpoint load_files (parser_files : list string) (config_variable : string)
    (configs : configs_t) (st : interp M) : interp M * (exn + configs_t) :=
  match parser_files with
  | [] => (st, inr configs)
  | file_path :: rest =>
      match import_module (module_name file_path) st with
      | (st', inl e) => (st', inl e)
      | (st', inr parser_module) =>
          match getattr_items parser_module config_variable with
          | inl e => (st', inl e)
          | inr items =>
              load_files rest config_variable
                (fold_left (fun c item => extend c item.1 item.2) items configs)
                st'
          end
      end
  end.

(** l.24-45 *)
Fixpoint load_parsers (parsers : list string) (config_variable : string)
    (configs : configs_t) (st : interp M) : interp M * (exn + configs_t) :=
  match parsers with
  | [] => (st, inr configs)
  | parser :: rest =>
      let parser := realpath parser in
      let '(path_addition, parser_files) :=
        if isdir parser then (parser, glob_py parser)
        else (dirname parser, [parser]) in
      let st1 := set_sys_path st (sys_path st ++ [path_addition]) in
      let '(st2, r) := load_files parser_files config_variable configs st1 in
      let st3 := restore_path path_addition st2 in
      match r with
      | inl e => (st3, inl e)
      | inr configs' => load_parsers rest config_variable configs' st3
      end
  end.

Definition _load_parser_configs (parsers : list string)
    (config_variable : string) (st : interp M)
  : interp M * (exn + configs_t) :=
  load_parsers parsers config_variable [] st.



End Loader.

End Cli.

(** ** States of a tracker whose path no longer names its file *)
Module TrackerMore.

Import Tracker.

Section WithStore.

Context {S : Type}.

(** The tracker is at [l] with store [s] and trace [tr]; [log_io] is [f],
    an open file on the inode [id] holding [i], at offset [pos]; the file
    system is [w]. *)
Definition Reads (st : world S * tracker) (l : pc) (s : S)
    (tr : list event) (f : OS.AsyncFile) (id : Z * Z) (i : OS.inode)
    (pos : nat) (w : OS.fs) : Prop :=
  t_pc st.2 = l /\ w_store st.1 = s /\ t_trace st.2 = tr /\
  t_io st.2 = Some f /\ OS.p_fs (w_proc st.1) = w /\
  exists d, OS.file_of (w_proc st.1) f = inr (d, i) /\
            OS.ofd_id d = id /\ OS.ofd_pos d = pos.

End WithStore.

End TrackerMore.

(** ** Reading the merged configuration *)
Module CliMore.

(** [configs[log_file]] on the [defaultdict(list)]: the parsers registered
    for the file, none when the key is absent. *)
Fixpoint parsers_for {H : Type} (configs : list (string * list H))
    (log_file : string) : list H :=
  match configs with
  | [] => []
  | (k, v) :: rest =>
      if String.eqb k log_file then v else parsers_for rest log_file
  end.

(** l.38-39: merging the items of one parser module into [configs]. *)
Definition merge {H : Type} (items configs : list (string * list H))
  : list (string * list H) :=
  fold_left (fun c item => Cli.extend c item.1 item.2) items configs.

(** What the items of one module say about one file. *)
Definition said_for {H : Type} (log_file : string)
    (items : list (string * list H)) : list H :=
  flat_map (fun item => if String.eqb item.1 log_file then item.2 else [])
           items.

End CliMore.

(** ** Defaults taken from the environment ([add_parser_args])

    The values are text as [os.getenv] returns it; the functions below
    follow Python on ASCII text. *)
Module Args.

Definition COLON : ascii := ":"%char.

(** [s.split(":")] *)
Fixpoint split_colon (s : string) : list string :=
  match s with
  | EmptyString => [EmptyString]
  | String c rest =>
      if Ascii.eqb c COLON then EmptyString :: split_colon rest
      else match split_colon rest with
           | [] => [String c EmptyString]
           | p :: ps => String c p :: ps
           end
  end.

Definition nonempty (s : string) : bool :=
  match s with
  | EmptyString => false
  | String _ _ => true
  end.

(** [os.getenv(name, default)] *)
Definition getenv (value : option string) (default : string) : string :=
  match value with
  | Some v => v
  | None => default
  end.

(** l.98: [[p for p in os.getenv("LOG_PARSER_PARSERS", "").split(":") if p]] *)
Definition default_parsers (LOG_PARSER_PARSERS : option string) : list string :=
  List.filter nonempty (split_colon (getenv LOG_PARSER_PARSERS EmptyString)).

(** [":".join(paths)] *)
Fixpoint join_colon (paths : list string) : string :=
  match paths with
  | [] => EmptyString
  | [p] => p
  | p :: rest => p +:+ String COLON (join_colon rest)
  end.

Fixpoint has_colon (s : string) : bool :=
  match s with
  | EmptyString => false
  | String c rest => Ascii.eqb c COLON || has_colon rest
  end.

(** [str.lower] on ASCII. *)
Definition lower_char (c : ascii) : ascii :=
  let n := nat_of_ascii c in
  if Nat.leb 65 n && Nat.leb n 90 then ascii_of_nat (n + 32) else c.

Fixpoint lower (s : string) : string :=
  match s with
  | EmptyString => EmptyString
  | String c rest => String (lower_char c) (lower rest)
  end.

Definition ascii_only (s : string) : Prop :=
  Forall (fun c => nat_of_ascii c < 128) (list_ascii_of_string s).

Fixpoint all_space (s : string) : bool :=
  match s with
  | EmptyString => true
  | String c rest => Text.isspace c && all_space rest
  end.

(** l.85: [bool(s and s.lower().strip() in {"1", "true", "t"})] *)
Definition _truthy (s : option string) : bool :=
  match s with
  | None => false
  | Some EmptyString => false
  | Some s =>
      let v := Text.strip (lower s) in
      String.eqb v "1" || String.eqb v "true" || String.eqb v "t"
  end.

End Args.

(** ** Concrete files, parsers and configurations *)
Module Scenarios.

Import Tracker.

Definition nl : string := Text.newline.

(** A regular file, mode 0o100644. *)
Definition regular (data : string) : OS.inode :=
  {| OS.i_mode := 33188; OS.i_nlink := 1; OS.i_uid := 1000; OS.i_gid := 1000;
     OS.i_atime := 0; OS.i_mtime := 0; OS.i_ctime := 0;
     OS.i_seekable := true; OS.i_data := data |}.

Definition no_files : OS.fs :=
  {| OS.dirents := ∅; OS.inodes := ∅; OS.faults := ∅ |}.

(** A file system with one regular file. *)
Definition one_file (path : string) (ino : Z) (data : string) : OS.fs :=
  OS.env_apply (OS.Create path (2049, ino)%Z (regular data)) no_files.

Definition process (w : OS.fs) : OS.proc :=
  {| OS.p_fs := w; OS.p_fds := ∅; OS.p_next := 3 |}.

(** The tests' [basic_line_parser(container)]:
    [lambda line, c=container: c.append(line.strip())]. *)
Definition basic_line_parser : handler (list string) :=
  {| iscoroutinefunction := false;
     call := fun line c => (c ++ [Text.strip line], None) |}.


(** A parser that keeps the line as it receives it. *)
Definition keep_line : handler (list string) :=
  {| iscoroutinefunction := false;
     call := fun line c => (c ++ [line], None) |}.


(** [track_file(path, parsers)] with the default arguments. *)
Definition defaults (path : string) (parsers : list (handler (list string)))
  : config (list string) :=
  {| log_file := path; line_parsers := parsers; poll_delay := 1;
     tail := false; timeout := None |}.

Definition begin (w : OS.fs) : world (list string) :=
  {| w_proc := process w; w_store := [] |}.

Definition test_log : string := "test.log".

(** Scenario A: the file holds "a\nb". *)
Definition scenario_A : world (list string) :=
  begin (one_file test_log 100 ("a" +:+ nl +:+ "b")).

(** Scenario C: the file holds "x\n"; once the tracker has read it and
    sleeps, another process opens it for writing and writes "y\n". *)
Definition scenario_C (after : nat) : list input :=
  repeat Resume 4 ++ [Env (OS.Rewrite test_log ("y" +:+ nl))]
    ++ repeat Resume after.

(** Two complete lines, as in the tests. *)
Definition two_lines : world (list string) :=
  begin (one_file test_log 100 ("test 123" +:+ nl +:+ "test456" +:+ nl)).

(** The file "xx\n" has been read; it is rewritten with "y\n" and the
    tracker wakes up. *)
Definition after_truncation : world (list string) * tracker :=
  track_file (defaults test_log [basic_line_parser])
    (repeat Resume 4 ++ [Env (OS.Rewrite test_log ("y" +:+ nl)); Resume])
    (begin (one_file test_log 100 ("xx" +:+ nl))).




(** The file "l1\nl2\n" has been read; it is cut down to its first line
    while the tracker sleeps. *)
Definition cut_to_first_line : list input :=
  repeat Resume 5 ++ [Env (OS.Rewrite test_log ("l1" +:+ nl))]
    ++ repeat Resume 6.

(** An open file on [test.log]. *)
Definition opened : OS.proc :=
  let p := process (one_file test_log 100 ("a" +:+ nl)) in
  match OS.open_file p test_log with
  | inr (_, p') => p'
  | inl _ => p
  end.

Definition opened_file : OS.AsyncFile :=
  {| OS.name := test_log; OS.fileno := 3 |}.

(** Scenario C with a poll between the truncation and the write: the file
    holds "x\n"; it is truncated while the tracker sleeps, the tracker
    polls, and then "y\n" is written. *)
Definition scenario_C_polled : list input :=
  repeat Resume 4 ++ [Env (OS.Rewrite test_log EmptyString)]
    ++ repeat Resume 3 ++ [Env (OS.Append test_log ("y" +:+ nl))]
    ++ repeat Resume 3.

(** A permission problem on the path of an open file. *)
Definition denied : OS.proc :=
  OS.env_proc (OS.SetFault test_log (Some PermissionError)) opened.

(** Two trackers: the first path does not exist. *)
Definition missing_and_present
  : list (string * list (handler (list string))) :=
  [("missing.log", [basic_line_parser]); (test_log, [basic_line_parser])].

Definition present_only : world (list string) :=
  begin (one_file test_log 100 ("b1" +:+ nl)).



(** The second tracker reads its file and sleeps; then the first tracker
    runs until it fails, and its done callback runs; then a line is
    appended to the second file and the second tracker is run again and
    again; at last its done callback and the waiting task run. *)
Definition sibling_schedule : list Supervisor.sched :=
  repeat (Supervisor.Run 1) 4
    ++ repeat (Supervisor.Run 0) 3 ++ [Supervisor.Callback 0]
    ++ [Supervisor.External (OS.Append test_log ("b2" +:+ nl))]
    ++ repeat (Supervisor.Run 1) 10
    ++ [Supervisor.Callback 1; Supervisor.Wake].



(** Two trackers whose paths do not exist. *)
Definition both_missing : list (string * list (handler (list string))) :=
  [("missing.log", [basic_line_parser]); ("absent.log", [basic_line_parser])].

(** A parser file [/parsers/app.py] that defines [LOG_PARSER_CONFIG], and
    the import system that finds it. *)
Definition parser_module : Type :=
  list (string * list (string * list (handler (list string)))).

Definition app_module : parser_module :=
  [("LOG_PARSER_CONFIG", [(test_log, [basic_line_parser])])].

Definition import_app (module : string) (st : Cli.interp unit)
  : Cli.interp unit * (exn + parser_module) :=
  if String.eqb module "app" then (st, inr app_module)
  else (st, inl ModuleNotFoundError).

Definition getattr_of (m : parser_module) (attr : string)
  : exn + list (string * list (handler (list string))) :=
  match List.find (fun kv => String.eqb kv.1 attr) m with
  | Some kv => inr kv.2
  | None => inl AttributeError
  end.



(** A parser file that adds a directory of its own to [sys.path] when it
    is imported. *)
Definition import_extra (module : string) (st : Cli.interp unit)
  : Cli.interp unit * (exn + parser_module) :=
  (Cli.set_sys_path st (Cli.sys_path st ++ ["/extra"]), inr app_module).

(** A parser file that removes the directory of the parsers from
    [sys.path] when it is imported ([sys.path.remove]: the first entry
    equal to it). *)
Fixpoint remove_first (x : string) (l : list string) : list string :=
  match l with
  | [] => []
  | y :: rest => if String.eqb y x then rest else y :: remove_first x rest
  end.

Definition import_removing (module : string) (st : Cli.interp unit)
  : Cli.interp unit * (exn + parser_module) :=
  (Cli.set_sys_path st (remove_first "/parsers" (Cli.sys_path st)),
   inr app_module).

Definition parent_dir (path : string) : string := "/parsers".

Definition stem (path : string) : string :=
  if String.eqb path "/parsers/app.py" then "app" else "other".

Definition python : Cli.interp unit :=
  {| Cli.sys_path := ["/usr/lib/python3"; "/parsers"]; Cli.heap := tt |}.

End Scenarios.
(** ** More files and configurations *)
Module ScenariosMore.

Import Tracker Scenarios.

(** A named pipe, mode 0o010644: a stream that cannot seek. *)
Definition fifo (data : string) : OS.inode :=
  {| OS.i_mode := 4516; OS.i_nlink := 1; OS.i_uid := 1000; OS.i_gid := 1000;
     OS.i_atime := 0; OS.i_mtime := 0; OS.i_ctime := 0;
     OS.i_seekable := false; OS.i_data := data |}.

Definition one_fifo (path : string) (ino : Z) (data : string) : OS.fs :=
  OS.env_apply (OS.Create path (2049, ino)%Z (fifo data)) no_files.

(** [track_file(path, parsers, tail=True)] *)
Definition tailing (path : string) (parsers : list (handler (list string)))
  : config (list string) :=
  {| log_file := path; line_parsers := parsers; poll_delay := 1;
     tail := true; timeout := None |}.


End ScenariosMore.


(** ** The classifier *)
Module ClassifierFacts.

Import OS.

Lemma resolve_inode (w : fs) (path : string) (id : file_id) (i : inode) :
  resolve w path = inr (id, i) -> inodes w !! id = Some i.
Proof.
  unfold resolve. intros H.
  destruct (faults w !! path); [discriminate|].
  destruct (dirents w !! path) as [id'|]; [|discriminate].
  destruct (inodes w !! id') as [i'|] eqn:E; [|discriminate].
  by simplify_eq.
Qed.

Lemma file_of_inode (p : proc) (f : AsyncFile) (d : ofd) (i : inode) :
  file_of p f = inr (d, i) ->
  p_fds p !! fileno f = Some d /\ inodes (p_fs p) !! ofd_id d = Some i.
Proof.
  unfold file_of. intros H.
  destruct (p_fds p !! fileno f) as [d'|]; [|discriminate].
  destruct (inodes (p_fs p) !! ofd_id d') as [i'|] eqn:E; [|discriminate].
  by simplify_eq.
Qed.

(** The stat tuple carries the identity it was taken from. *)
Lemma identity_stat_of (id : file_id) (i : inode) :
  identity (stat_of id i) = id.
Proof. by destruct id. Qed.

(** Two stats taken from one file system state agree as soon as they are
    stats of the same underlying file. *)
Lemma stat_of_same_file (w : fs) (id id' : file_id) (i j : inode) :
  inodes w !! id = Some i -> inodes w !! id' = Some j ->
  stat_of id i = stat_of id' j <-> id = id'.
Proof.
  intros Hi Hj. split.
  - intros E. rewrite <- (identity_stat_of id i), <- (identity_stat_of id' j).
    by rewrite E.
  - intros ->. congruence.
Qed.

(** The classifier on what its system calls see: the path before the
    changes [between], the descriptor after them. *)
Lemma check_file_state_stats (p : proc) (between : list env_action)
    (f : AsyncFile) (id : file_id) (i : inode) (d : ofd) (j : inode) :
  resolve (p_fs p) (name f) = inr (id, i) ->
  file_of (env_procs between p) f = inr (d, j) ->
  _check_file_state p between f =
    inr (if bool_decide (stat_of id i = stat_of (ofd_id d) j) then
           if i_seekable j then
             if (Z.of_nat (String.length (i_data j)) <? Z.of_nat (ofd_pos d))%Z
             then TRUNCATED else NOCHANGE
           else NOCHANGE
         else DIFFERENT).
Proof.
  intros Hr Hf. unfold _check_file_state, stat_path, stat_fd, seekable, tell.
  rewrite Hr. cbv zeta. rewrite Hf. simpl.
  destruct (bool_decide (stat_of id i = stat_of (ofd_id d) j)); [|done].
  destruct (i_seekable j); [|done]. by destruct (_ <? _)%Z.
Qed.

(** The classifier when nothing changes between its two stats. *)
Lemma check_file_state_resolved (p : proc) (f : AsyncFile)
    (id : file_id) (i : inode) (d : ofd) (j : inode) :
  resolve (p_fs p) (name f) = inr (id, i) ->
  file_of p f = inr (d, j) ->
  _check_file_state p [] f =
    inr (if bool_decide (id = ofd_id d) then
           if i_seekable j then
             if (Z.of_nat (String.length (i_data j)) <? Z.of_nat (ofd_pos d))%Z
             then TRUNCATED else NOCHANGE
           else NOCHANGE
         else DIFFERENT).
Proof.
  intros Hr Hf. rewrite (check_file_state_stats p [] f id i d j Hr Hf).
  pose proof (resolve_inode _ _ _ _ Hr) as Hi.
  destruct (file_of_inode _ _ _ _ Hf) as [_ Hj].
  pose proof (stat_of_same_file _ _ _ _ _ Hi Hj) as Hs.
  destruct (decide (id = ofd_id d)) as [E|E].
  - rewrite (bool_decide_eq_true_2 _ E).
    by rewrite (bool_decide_eq_true_2 _ (proj2 Hs E)).
  - rewrite (bool_decide_eq_false_2 _ E).
    rewrite bool_decide_eq_false_2; [done|]. intros E'. by apply E, Hs.
Qed.

Lemma check_file_state_stat_error (p : proc) (between : list env_action)
    (f : AsyncFile) (e : exn) :
  stat_path (p_fs p) (name f) = inl e ->
  _check_file_state p between f =
    match e with FileNotFoundError => inr DELETED | _ => inl e end.
Proof. unfold _check_file_state. intros ->. by destruct e. Qed.

(** When nothing changes the files between the two stats,
    [_check_file_state] answers DIFFERENT exactly when the path resolves
    to a file whose identity (device, inode number) is not the identity of
    the file behind the open handle; and while the two identities agree,
    no other content of the stat of that file (size, times, mode, owner,
    link count) makes the answer DIFFERENT. *)
Lemma check_file_state_different_iff (p : proc) (f : AsyncFile) :
  (_check_file_state p [] f = inr DIFFERENT <->
   exists id i d j,
     resolve (p_fs p) (name f) = inr (id, i) /\
     file_of p f = inr (d, j) /\
     id <> ofd_id d) /\
  (forall id i d j i',
     resolve (p_fs p) (name f) = inr (id, i) ->
     file_of p f = inr (d, j) ->
     id = ofd_id d ->
     _check_file_state (change_inode p id i') [] f <> inr DIFFERENT).
Proof.
  split; [split|].
  - intros H.
    destruct (resolve (p_fs p) (name f)) as [e|[id i]] eqn:Hr.
    { rewrite (check_file_state_stat_error p [] f e) in H.
      - by destruct e.
      - unfold stat_path. by rewrite Hr. }
    destruct (file_of p f) as [e|[d j]] eqn:Hf.
    { unfold _check_file_state, stat_path, stat_fd in H.
      rewrite Hr in H. simpl in H. rewrite Hf in H. discriminate. }
    exists id, i, d, j. repeat split; try done.
    rewrite (check_file_state_resolved p f id i d j Hr Hf) in H.
    intros E. rewrite (bool_decide_eq_true_2 _ E) in H.
    destruct (i_seekable j); [|discriminate].
    by destruct (_ <? _)%Z.
  - intros (id & i & d & j & Hr & Hf & Hne).
    rewrite (check_file_state_resolved p f id i d j Hr Hf).
    by rewrite (bool_decide_eq_false_2 _ Hne).
  - intros id i d j i' Hr Hf E.
    assert (Hr' : resolve (p_fs (change_inode p id i')) (name f) = inr (id, i')).
    { unfold resolve in *. simpl.
      destruct (faults (p_fs p) !! name f); [discriminate|].
      destruct (dirents (p_fs p) !! name f) as [id0|]; [|discriminate].
      destruct (inodes (p_fs p) !! id0) eqn:E0; [|discriminate].
      simplify_eq. by rewrite lookup_insert_eq. }
    assert (Hf' : file_of (change_inode p id i') f = inr (d, i')).
    { destruct (file_of_inode _ _ _ _ Hf) as [Hd _].
      unfold file_of. simpl. rewrite Hd, E. by rewrite lookup_insert_eq. }
    rewrite (check_file_state_resolved _ f id i' d i' Hr' Hf').
    rewrite (bool_decide_eq_true_2 _ E).
    destruct (i_seekable i'); [|discriminate].
    by destruct (_ <? _)%Z.
Qed.

(** What a write does to the file that the path names. *)
Lemma resolve_append (w : fs) (path : string) (id : file_id) (i : inode)
    (data : string) :
  resolve w path = inr (id, i) ->
  inodes (env_apply (Append path data) w) !! id
    = Some (set_data (i_data i +:+ data) i).
Proof.
  unfold resolve. intros H. simpl. unfold with_inode.
  destruct (faults w !! path); [discriminate|].
  destruct (dirents w !! path) as [id'|]; [|discriminate].
  destruct (inodes w !! id') as [i'|] eqn:E; [|discriminate].
  simplify_eq. simpl. by rewrite lookup_alter_eq, E.
Qed.

Lemma string_length_append (a b : string) :
  String.length (a +:+ b) = String.length a + String.length b.
Proof.
  induction a as [|c a IH]; [done|].
  change (String c a +:+ b) with (String c (a +:+ b)). simpl. by rewrite IH.
Qed.

(** C3 fails on the code.  When the path names the open file and another
    process appends to that file after [os.stat(log_io.name)] (l.38) and
    before [os.stat(log_io.fileno())] (l.41), the two tuples differ in
    [st_size] and [_check_file_state] answers DIFFERENT, although the
    identity of the file at the path is the identity of the open handle;
    without the write between the two calls it does not. *)
Theorem check_file_state_racing_append_different (p : proc) (f : AsyncFile)
    (d : ofd) (i : inode) (data : string) :
  resolve (p_fs p) (name f) = inr (ofd_id d, i) ->
  file_of p f = inr (d, i) ->
  data <> EmptyString ->
  _check_file_state p [Append (name f) data] f = inr DIFFERENT /\
  _check_file_state p [] f <> inr DIFFERENT /\
  _check_file_state (env_proc (Append (name f) data) p) [] f <> inr DIFFERENT.
Proof.
  intros Hr Hf Hdata.
  destruct (file_of_inode _ _ _ _ Hf) as [Hd Hi].
  pose proof (resolve_append _ _ _ _ data Hr) as Ha.
  assert (Hf' : file_of (env_proc (Append (name f) data) p) f
                = inr (d, set_data (i_data i +:+ data) i)).
  { unfold file_of, env_proc. cbn [p_fs p_fds]. by rewrite Hd, Ha. }
  split; [|split].
  - rewrite (check_file_state_stats p [Append (name f) data] f
               (ofd_id d) i d (set_data (i_data i +:+ data) i) Hr Hf').
    rewrite bool_decide_eq_false_2; [done|].
    intros E. apply (f_equal st_size) in E. simpl in E.
    rewrite string_length_append in E. destruct data; [done|]. simpl in E. lia.
  - rewrite (check_file_state_resolved p f (ofd_id d) i d i Hr Hf).
    rewrite bool_decide_eq_true_2 by done.
    destruct (i_seekable i); [|done]. by destruct (_ <? _)%Z.
  - assert (Hr' : resolve (p_fs (env_proc (Append (name f) data) p)) (name f)
                  = inr (ofd_id d, set_data (i_data i +:+ data) i)).
    { unfold resolve in *. simpl. unfold with_inode.
      destruct (faults (p_fs p) !! name f) eqn:Ef; [discriminate|].
      destruct (dirents (p_fs p) !! name f) as [id'|] eqn:Ed; [|discriminate].
      destruct (inodes (p_fs p) !! id') as [i'|] eqn:E; [|discriminate].
      simplify_eq. simpl. by rewrite Ef, Ed, lookup_alter_eq, E. }
    rewrite (check_file_state_resolved _ f _ _ d _ Hr' Hf').
    rewrite bool_decide_eq_true_2 by done.
    destruct (i_seekable _); [|done]. by destruct (_ <? _)%Z.
Qed.

(** C4, as the code has it.  A stat of the path that fails with
    [FileNotFoundError] is classified DELETED; a stat that fails in any
    other way is not classified: the error leaves [_check_file_state].
    What other processes do afterwards plays no part. *)
Theorem check_file_state_stat_failure (p : proc) (between : list env_action)
    (f : AsyncFile) (e : exn) :
  stat_path (p_fs p) (name f) = inl e ->
  (e = FileNotFoundError -> _check_file_state p between f = inr DELETED) /\
  (e <> FileNotFoundError -> _check_file_state p between f = inl e).
Proof.
  intros H. rewrite (check_file_state_stat_error p between f e H).
  split; intros He; by destruct e.
Qed.

End ClassifierFacts.

(** ** Facts about reading lines *)
Module TextFacts.

Import Text.

Lemma skip_empty (n : nat) : skip n EmptyString = EmptyString.
Proof. by destruct n. Qed.

Lemma skip_skip (m n : nat) (s : string) : skip n (skip m s) = skip (m + n) s.
Proof.
  revert s. induction m as [|m IH]; intros s; simpl; [done|].
  destruct s; [apply skip_empty | apply IH].
Qed.

Lemma length_skip (n : nat) (s : string) :
  String.length (skip n s) = String.length s - n.
Proof.
  revert s. induction n as [|n IH]; intros s; simpl; [lia|].
  destruct s; simpl; [done | apply IH].
Qed.

Lemma skip_all (n : nat) (s : string) :
  String.length s <= n -> skip n s = EmptyString.
Proof.
  revert s. induction n as [|n IH]; intros [|c s]; simpl; try done; try lia.
  intros H. apply IH. lia.
Qed.

Lemma skip_length_empty (n : nat) (s : string) :
  n <= String.length s -> skip n s = EmptyString -> n = String.length s.
Proof.
  intros Hle E. pose proof (length_skip n s) as L. rewrite E in L. simpl in L.
  lia.
Qed.

Lemma lines_of_nil (data : string) : lines_of data = [] -> data = EmptyString.
Proof.
  destruct data as [|c rest]; [done|]. simpl.
  destruct (is_LF c); [done|].
  destruct (is_CR c).
  - destruct rest as [|c' rest']; [done|]. by destruct (is_LF c').
  - by destruct (lines_of rest).
Qed.

(** One [readline] yields the first of the remaining lines and leaves the
    others; it consumes no more than there is. *)
Lemma readline_from_spec (data : string) (l : string) (n : nat) :
  data <> EmptyString ->
  readline_from data = (l, n) ->
  l <> EmptyString /\ n <= String.length data /\
  lines_of data = l :: lines_of (skip n data).
Proof.
  revert l n. induction data as [|c rest IH]; intros l n Hne; [done|].
  simpl. destruct (is_LF c).
  { intros [= <- <-]. simpl. split; [done|]. split; [lia|done]. }
  destruct (is_CR c).
  { destruct rest as [|c' rest'].
    - intros [= <- <-]. simpl. split; [done|]. split; [lia|done].
    - destruct (is_LF c'); intros [= <- <-]; simpl;
        (split; [done|]); (split; [lia|done]). }
  destruct (readline_from rest) as [l' n'] eqn:E.
  intros [= <- <-]. split; [done|].
  destruct rest as [|c' rest'].
  { simpl in E. injection E as <- <-. simpl. split; [lia|done]. }
  destruct (IH l' n') as (_ & Hn & Hl); [done|done|].
  split; [simpl in *; lia|].
  rewrite Hl. done.
Qed.

Lemma readline_from_empty : readline_from EmptyString = (EmptyString, 0).
Proof. done. Qed.

(** Nothing is held back and nothing is cut off: the lines, put together
    again, are the whole text. *)
Lemma concat_lines_of (data : string) :
  concat_lines (lines_of data) = translate data.
Proof.
  unfold concat_lines.
  induction data as [|c rest IH]; [done|]. simpl.
  destruct (is_LF c) eqn:ELF.
  { simpl. by rewrite <- IH. }
  destruct (is_CR c).
  { destruct rest as [|c' rest']; [done|].
    destruct (is_LF c') eqn:E'.
    - simpl in IH. rewrite E' in IH. exact IH.
    - change (newline +:+ foldr append EmptyString (lines_of (String c' rest'))
              = String LF (translate (String c' rest'))).
      by rewrite IH. }
  destruct (lines_of rest) as [|l ls]; simpl in *; by rewrite <- IH.
Qed.

Lemma append_cons (c : ascii) (a b : string) :
  String c a +:+ b = String c (a +:+ b).
Proof. reflexivity. Qed.

Lemma append_assoc (a b c : string) : (a +:+ b) +:+ c = a +:+ (b +:+ c).
Proof.
  induction a as [|x a IH]; [reflexivity|].
  rewrite !append_cons. by rewrite IH.
Qed.

(** A body followed by LF is one line. *)
Lemma lines_of_terminated (l rest : string) :
  no_terminator l = true ->
  lines_of (l +:+ newline +:+ rest) = (l +:+ newline) :: lines_of rest.
Proof.
  induction l as [|c l IH]; [reflexivity|].
  simpl. intros H.
  apply andb_prop in H as [H Hl]. apply andb_prop in H as [H1 H2].
  apply negb_true_iff in H1, H2.
  rewrite !append_cons. simpl. rewrite H1, H2.
  by rewrite (IH Hl).
Qed.

Lemma lines_of_join_terminated (ls : list string) :
  Forall (fun l => no_terminator l = true) ls ->
  lines_of (join_terminated ls) = map (fun l => l +:+ newline) ls.
Proof.
  induction 1 as [|l ls Hl _ IH]; simpl; [done|].
  by rewrite lines_of_terminated, IH.
Qed.




Lemma is_LF_eq (c : ascii) : is_LF c = true -> c = LF.
Proof. apply Ascii.eqb_eq. Qed.

Lemma is_CR_eq (c : ascii) : is_CR c = true -> c = CR.
Proof. apply Ascii.eqb_eq. Qed.

Lemma complete_tail (c c' : ascii) (rest : string) :
  complete (String c (String c' rest)) = complete (String c' rest).
Proof. reflexivity. Qed.

Lemma split_lines_complete (n : nat) :
  forall data, String.length data <= n -> complete data = true ->
  join_lines (split_lines data) = data /\
  well_split (split_lines data) = true /\
  (data <> EmptyString -> split_lines data <> []).
Proof.
  induction n as [|n IH]; intros [|c rest] Hn Hc; simpl in Hn;
    try done; try lia.
  assert (Hrest : rest <> EmptyString -> complete rest = true).
  { destruct rest as [|c' rest']; [done|]. intros _. by rewrite <- Hc. }
  cbn [split_lines].
  destruct (is_LF c) eqn:Ec.
  { apply is_LF_eq in Ec as ->.
    destruct rest as [|c' rest'].
    - by repeat split.
    - destruct (IH (String c' rest')) as (Hj & Hw & _); [lia|by apply Hrest|].
      cbn [join_lines well_split no_terminator terminator_text].
      rewrite Hj, Hw. by repeat split. }
  destruct (is_CR c) eqn:Er.
  { apply is_CR_eq in Er as ->.
    destruct rest as [|c' rest']; [by repeat split|].
    destruct (is_LF c') eqn:Ec'.
    - apply is_LF_eq in Ec' as ->.
      destruct rest' as [|c'' rest''].
      + by repeat split.
      + destruct (IH (String c'' rest'')) as (Hj & Hw & _);
          [simpl in *; lia|by rewrite <- Hc|].
        cbn [join_lines well_split no_terminator terminator_text].
        rewrite Hj, Hw. by repeat split.
    - destruct (IH (String c' rest')) as (Hj & Hw & Hne);
        [lia|by apply Hrest|].
      cbn [join_lines well_split no_terminator terminator_text].
      rewrite Hj, Hw. split; [done|]. split; [|done].
      cbn [split_lines] in *. rewrite Ec' in *.
      destruct (is_CR c') eqn:Er'.
      + destruct rest' as [|c'' rest'']; [done|]. by destruct (is_LF c'').
      + destruct (split_lines rest') as [|[b t] ls]; [by destruct Hne|done]. }
  destruct rest as [|c' rest'].
  { simpl in Hc. by rewrite Ec, Er in Hc. }
  destruct (IH (String c' rest')) as (Hj & Hw & Hne); [lia|by apply Hrest|].
  destruct (split_lines (String c' rest')) as [|[b t] ls] eqn:Es;
    [by destruct Hne|].
  cbn [join_lines] in *. rewrite append_cons, Hj.
  split; [done|]. split; [|done].
  cbn [well_split no_terminator] in *. rewrite Ec, Er. simpl.
  exact Hw.
Qed.

(** Every file that consists of complete lines is the file of its
    lines. *)
Lemma complete_file_is_join_lines (data : string) :
  complete data = true ->
  exists ls, well_split ls = true /\ join_lines ls = data.
Proof.
  intros H.
  destruct (split_lines_complete (String.length data) data) as (Hj & Hw & _);
    [lia|done|].
  by exists (split_lines data).
Qed.

End TextFacts.

(** ** The handler loop and the read loop of [track_file] *)
Module TrackerFacts.

Import OS Tracker TextFacts ClassifierFacts Scenarios.

Section WithStore.

Context {S : Type}.
Implicit Types (lp : handler S) (lps : list (handler S)) (s : S).
Implicit Types (cfg : config S) (w : world S) (t : tracker).

(** *** The inner loop over the parsers *)

Lemma invocations_from_cons idx lp lps line :
  invocations_from idx (lp :: lps) line =
  invocation idx lp line :: invocations_from (Datatypes.S idx) lps line.
Proof.
  unfold invocations_from. rewrite imap_cons. rewrite Nat.add_0_r. f_equal.
  apply imap_ext. intros i x _. simpl. f_equal. lia.
Qed.

Lemma invocations_from_app idx lps lps' line :
  invocations_from idx (lps ++ lps') line =
  invocations_from idx lps line ++
  invocations_from (idx + length lps) lps' line.
Proof.
  unfold invocations_from. rewrite imap_app. f_equal.
  apply imap_ext. intros i x _. simpl. f_equal. lia.
Qed.



Lemma apply_all_app lps lps' line s :
  apply_all (lps ++ lps') line s = apply_all lps' line (apply_all lps line s).
Proof. unfold apply_all. apply fold_left_app. Qed.

Lemma dispatch_all_return idx lps line s :
  Forall (returns_on line) lps ->
  dispatch idx lps line s =
    (invocations_from idx lps line, apply_all lps line s, None).
Proof.
  intros H. revert idx s.
  induction H as [|lp lps Hlp _ IH]; intros idx s; [done|].
  cbn [dispatch]. specialize (Hlp s).
  destruct (call lp line s) as [s' r] eqn:E. simpl in Hlp. subst r.
  assert (E' : apply_all (lp :: lps) line s = apply_all lps line s').
  { unfold apply_all. cbn [fold_left]. by rewrite E. }
  by rewrite IH, invocations_from_cons, E'.
Qed.


(** *** The read loop on a file that nobody else touches *)


Lemma file_of_set_pos p f d i n :
  file_of p f = inr (d, i) ->
  file_of (set_pos p (fileno f) d n) f =
    inr ({| ofd_id := ofd_id d; ofd_pos := n |}, i).
Proof.
  intros H. destruct (file_of_inode _ _ _ _ H) as [_ Hi].
  unfold file_of, set_pos. simpl. rewrite lookup_insert_eq. simpl.
  by rewrite Hi.
Qed.

Lemma attached_set_pos p f d i n :
  attached p f d i ->
  attached (set_pos p (fileno f) d n) f
           {| ofd_id := ofd_id d; ofd_pos := n |} i.
Proof. intros [Hf Hr]. split; [by apply file_of_set_pos | done]. Qed.

Lemma check_attached p f d i :
  attached p f d i ->
  _check_file_state p [] f =
    inr (if i_seekable i then
           if (Z.of_nat (String.length (i_data i)) <? Z.of_nat (ofd_pos d))%Z
           then TRUNCATED else NOCHANGE
         else NOCHANGE).
Proof.
  intros [Hf Hr]. rewrite (check_file_state_resolved p f _ _ _ _ Hr Hf).
  by rewrite bool_decide_eq_true_2.
Qed.


Lemma resume_read_line cfg st s tr f data pos line n :
  Holds st AtRead s tr f data pos ->
  Text.readline_from (Text.skip pos data) = (line, n) ->
  line <> EmptyString ->
  Forall (returns_on line) (line_parsers cfg) ->
  Holds (step cfg Resume st) AtRead
        (apply_all (line_parsers cfg) line s)
        (tr ++ invocations (line_parsers cfg) line) f data (pos + n).
Proof.
  destruct st as [w t].
  intros (Hpc & Hs & Htr & Hio & d & i & Hat & Hd & Hp) Hrl Hne Hok.
  simpl in *. unfold resume. rewrite Hpc, Hio.
  unfold readline. rewrite (proj1 Hat), Hd, Hp, Hrl.
  destruct line as [|c line]; [done|].
  rewrite (dispatch_all_return 0 _ _ _ Hok). rewrite Hs.
  repeat split; simpl; try done.
  - by rewrite Htr.
  - eexists _, i. split; [by apply attached_set_pos|done].
Qed.

Lemma resume_read_eof cfg st s tr f data pos :
  Holds st AtRead s tr f data pos ->
  Text.skip pos data = EmptyString ->
  Holds (step cfg Resume st) AtSleep s tr f data pos.
Proof.
  destruct st as [w t].
  intros (Hpc & Hs & Htr & Hio & d & i & Hat & Hd & Hp) Hr.
  simpl in *. unfold resume. rewrite Hpc, Hio.
  unfold readline. rewrite (proj1 Hat), Hd, Hp, Hr. simpl.
  repeat split; simpl; try done.
  eexists _, i. split; [by apply attached_set_pos|]. simpl. split; [done|lia].
Qed.

Lemma resume_sleep cfg st s tr f data pos :
  Holds st AtSleep s tr f data pos ->
  Holds (step cfg Resume st) AtCheck s tr f data pos.
Proof.
  destruct st as [w t].
  intros (Hpc & Hs & Htr & Hio & H). simpl in *.
  unfold resume. rewrite Hpc, Hio. by repeat split.
Qed.

Lemma resume_check_nochange cfg st s tr f data pos :
  Holds st AtCheck s tr f data pos ->
  pos <= String.length data ->
  Holds (step cfg Resume st) AtRead s tr f data pos.
Proof.
  destruct st as [w t].
  intros (Hpc & Hs & Htr & Hio & d & i & Hat & Hd & Hp) Hle. simpl in *.
  unfold resume, on_file_state.
  rewrite Hpc, Hio, (check_attached _ _ _ _ Hat), Hd, Hp.
  assert ((Z.of_nat (String.length data) <? Z.of_nat pos)%Z = false) as ->
    by (apply Z.ltb_ge; lia).
  destruct (i_seekable i); repeat split; try done; by exists d, i.
Qed.

Lemma resume_check_truncated cfg st s tr f data pos :
  Holds st AtCheck s tr f data pos ->
  String.length data < pos ->
  (forall d i, file_of (w_proc st.1) f = inr (d, i) -> i_seekable i = true) ->
  _check_file_state (w_proc st.1) [] f = inr TRUNCATED /\
  Holds (step cfg Resume st) AtSeek0 s tr f data pos.
Proof.
  destruct st as [w t].
  intros (Hpc & Hs & Htr & Hio & d & i & Hat & Hd & Hp) Hle Hseek. simpl in *.
  unfold resume, on_file_state.
  rewrite Hpc, Hio, (check_attached _ _ _ _ Hat), Hd, Hp.
  rewrite (Hseek d i (proj1 Hat)).
  assert ((Z.of_nat (String.length data) <? Z.of_nat pos)%Z = true) as ->
    by (apply Z.ltb_lt; lia).
  repeat split; try done; by exists d, i.
Qed.

Lemma resume_seek0 cfg st s tr f data pos :
  Holds st AtSeek0 s tr f data pos ->
  Holds (step cfg Resume st) AtSleep s (tr ++ [EvSeek (fileno f) 0]) f data 0.
Proof.
  destruct st as [w t].
  intros (Hpc & Hs & Htr & Hio & d & i & Hat & Hd & Hp). simpl in *.
  unfold resume. rewrite Hpc, Hio. unfold seek_start. rewrite (proj1 Hat).
  repeat split; simpl; try done.
  - by rewrite Htr.
  - eexists _, i. split; [by apply attached_set_pos|done].
Qed.


(** *** Draining, then idling *)

Lemma exec_app cfg a b (st : world S * tracker) :
  exec cfg (a ++ b) st = exec cfg b (exec cfg a st).
Proof. apply fold_left_app. Qed.

Lemma repeat_resume_add (a b : nat) :
  repeat Resume (a + b) = repeat Resume a ++ repeat Resume b.
Proof. apply repeat_app. Qed.


Lemma drain cfg (lines : list string) :
  forall st s tr f data pos,
  Holds st AtRead s tr f data pos ->
  pos <= String.length data ->
  Text.lines_of (Text.skip pos data) = lines ->
  all_return cfg lines ->
  Holds (exec cfg (repeat Resume (Datatypes.S (length lines))) st) AtSleep
        (apply_lines (line_parsers cfg) lines s)
        (tr ++ flat_map (invocations (line_parsers cfg)) lines)
        f data (String.length data).
Proof.
  induction lines as [|l ls IH]; intros st s tr f data pos H Hle Hl Hok.
  - apply lines_of_nil in Hl. simpl. rewrite app_nil_r.
    rewrite <- (skip_length_empty pos data Hle Hl).
    by apply resume_read_eof.
  - destruct (Text.readline_from (Text.skip pos data)) as [l' n] eqn:E.
    assert (Hne : Text.skip pos data <> EmptyString).
    { intros E0. by rewrite E0 in Hl. }
    destruct (readline_from_spec _ _ _ Hne E) as (Hl' & Hn & Hls).
    rewrite Hl in Hls. injection Hls as -> Hls. rewrite skip_skip in Hls.
    rewrite length_skip in Hn.
    inversion Hok as [|? ? Hok1 Hok2]; subst.
    pose proof (resume_read_line cfg st s tr f data pos l' n H E Hl' Hok1) as H1.
    change (repeat Resume (Datatypes.S (length (l' :: Text.lines_of (Text.skip (pos + n) data)))))
      with (Resume :: repeat Resume (Datatypes.S (length (Text.lines_of (Text.skip (pos + n) data))))).
    cbn [exec fold_left].
    specialize (IH _ _ _ _ _ _ H1 ltac:(lia) eq_refl Hok2).
    simpl. rewrite app_assoc. exact IH.
Qed.


Lemma idle_forever cfg (k : nat) :
  forall st l s tr f data,
  idle_pc l ->
  Holds st l s tr f data (String.length data) ->
  exists l', idle_pc l' /\
    Holds (exec cfg (repeat Resume k) st) l' s tr f data (String.length data).
Proof.
  induction k as [|k IH]; intros st l s tr f data Hl H.
  - by exists l.
  - cbn [repeat exec fold_left].
    destruct Hl as [->|[->| ->]].
    + apply (IH _ AtCheck); [unfold idle_pc; tauto|]. by apply resume_sleep.
    + apply (IH _ AtRead); [unfold idle_pc; tauto|].
      by apply resume_check_nochange.
    + apply (IH _ AtSleep); [unfold idle_pc; tauto|].
      apply resume_read_eof; [done|]. by apply skip_all.
Qed.

Lemma deliver_from_check cfg st s tr f data pos k :
  Holds st AtCheck s tr f data pos ->
  pos <= String.length data ->
  all_return cfg (Text.lines_of (Text.skip pos data)) ->
  length (Text.lines_of (Text.skip pos data)) + 2 <= k ->
  exists l', idle_pc l' /\
    Holds (exec cfg (repeat Resume k) st) l'
      (apply_lines (line_parsers cfg) (Text.lines_of (Text.skip pos data)) s)
      (tr ++ flat_map (invocations (line_parsers cfg))
                      (Text.lines_of (Text.skip pos data)))
      f data (String.length data).
Proof.
  intros H Hle Hok Hk.
  set (n := length (Text.lines_of (Text.skip pos data))) in *.
  replace k with (1 + (Datatypes.S n + (k - n - 2))) by lia.
  rewrite !repeat_resume_add, !exec_app.
  apply (idle_forever cfg _ _ AtSleep); [unfold idle_pc; tauto|].
  apply (drain cfg _ _ _ _ _ _ pos); try done.
  by apply resume_check_nochange.
Qed.

(** The first step of [track_file] on a path that resolves. *)
Lemma resume_open cfg w id i :
  tail cfg = false ->
  resolve (p_fs (w_proc w)) (log_file cfg) = inr (id, i) ->
  Holds (step cfg Resume (w, start)) AtCheck (w_store w)
        [EvOpen (p_next (w_proc w))]
        {| name := log_file cfg; fileno := p_next (w_proc w) |}
        (i_data i) 0.
Proof.
  intros Ht Hr. simpl. unfold resume. simpl.
  unfold open_file. rewrite Hr, Ht.
  repeat split; simpl; try done.
  exists {| ofd_id := id; ofd_pos := 0 |}, i. repeat split; try done.
  unfold file_of. simpl. rewrite lookup_insert_eq. simpl.
  by rewrite (resolve_inode _ _ _ _ Hr).
Qed.

Lemma delivered_app (a b : list event) :
  delivered (a ++ b) = delivered a ++ delivered b.
Proof. unfold delivered. apply omap_app. Qed.

Lemma delivered_invocations_from idx lps line :
  delivered (invocations_from idx lps line) =
  imap (fun i _ => (idx + i, line)) lps.
Proof.
  revert idx. induction lps as [|lp lps IH]; intros idx; [done|].
  rewrite invocations_from_cons, imap_cons, Nat.add_0_r.
  unfold delivered in *. cbn [omap list_omap].
  unfold invocation at 1. destruct (iscoroutinefunction lp); simpl;
    rewrite IH; f_equal; apply imap_ext; intros; simpl; f_equal; lia.
Qed.

Lemma delivered_flat_invocations lps (lines : list string) :
  delivered (flat_map (invocations lps) lines) =
  flat_map (fun line => imap (fun i _ => (i, line)) lps) lines.
Proof.
  induction lines as [|l ls IH]; [done|].
  simpl. rewrite delivered_app, IH. f_equal.
  apply (delivered_invocations_from 0).
Qed.


Lemma exec_one cfg (st : world S * tracker) :
  exec cfg (repeat Resume 1) st = step cfg Resume st.
Proof. reflexivity. Qed.

(** From the call of [track_file] to the idle loop, on a file that nobody
    else touches. *)
Lemma track_file_quiescent cfg w id i k :
  tail cfg = false ->
  resolve (p_fs (w_proc w)) (log_file cfg) = inr (id, i) ->
  all_return cfg (Text.lines_of (i_data i)) ->
  length (Text.lines_of (i_data i)) + 3 <= k ->
  exists l', idle_pc l' /\
    Holds (track_file cfg (repeat Resume k) w) l'
      (apply_lines (line_parsers cfg) (Text.lines_of (i_data i)) (w_store w))
      (EvOpen (p_next (w_proc w)) ::
       flat_map (invocations (line_parsers cfg)) (Text.lines_of (i_data i)))
      {| name := log_file cfg; fileno := p_next (w_proc w) |}
      (i_data i) (String.length (i_data i)).
Proof.
  intros Ht Hr Hok Hk. unfold track_file.
  replace k with (1 + (k - 1)) by lia.
  rewrite repeat_resume_add, exec_app.
  pose proof (resume_open cfg w id i Ht Hr) as H0.
  apply (deliver_from_check cfg _ _ _ _ _ 0 (k - 1)) in H0;
    simpl; try done; lia.
Qed.


(** C2, as the code has it.  [track_file] hands over every line that the
    stream iterator yields, as the iterator yields it: the terminator is
    kept (as LF), and the text after the last terminator is handed over
    like any other line, without being held back; put together, the lines
    are the whole text.  For the file "a\nb" the lines are "a\n" and "b",
    and the tests' collecting parser, which strips each line itself,
    collects "a" and "b". *)
Theorem track_file_delivers_lines_as_read cfg w id i (k : nat) :
  tail cfg = false ->
  resolve (p_fs (w_proc w)) (log_file cfg) = inr (id, i) ->
  all_return cfg (Text.lines_of (i_data i)) ->
  length (Text.lines_of (i_data i)) + 3 <= k ->
  delivered (t_trace (track_file cfg (repeat Resume k) w).2) =
    flat_map (fun line => imap (fun idx _ => (idx, line)) (line_parsers cfg))
             (Text.lines_of (i_data i)) /\
  Text.concat_lines (Text.lines_of (i_data i)) = Text.translate (i_data i) /\
  Text.lines_of ("a" +:+ nl +:+ "b") = ["a" +:+ nl; "b"] /\
  w_store (track_file (defaults test_log [basic_line_parser])
                      (repeat Resume 5) scenario_A).1 = ["a"; "b"].
Proof.
  intros Ht Hr Hok Hk.
  destruct (track_file_quiescent cfg w id i k Ht Hr Hok Hk) as (l' & _ & H).
  destruct H as (_ & _ & Htr & _).
  split; [|split; [apply concat_lines_of|split; by vm_compute]].
  rewrite Htr. change (EvOpen ?x :: ?l) with ([EvOpen x] ++ l).
  by rewrite delivered_app, delivered_flat_invocations.
Qed.

(** C5, as the code has it.  At a poll where the path still names the
    open file: when the file is seekable and the read offset is greater
    than its size, the classifier answers TRUNCATED, the tracker seeks
    the same handle to offset zero and (the file left alone) hands over
    every line of the present content from its beginning, whether or not
    such a line was handed over before; when the read offset is not
    greater than the size, the classifier answers NOCHANGE and the tracker
    reads on from its offset.  So: "xx\n" rewritten with "y\n" while the
    tracker sleeps gives "xx" and "y"; "x\n" truncated, polled while
    empty, then written with "y\n" gives "x" and "y"; "x\n" rewritten
    with "y\n" between two polls gives "x" alone; and "l1\nl2\n" cut down
    to "l1\n" gives "l1", "l2" and "l1" again. *)
Theorem track_file_truncated_rereads cfg w t f d i (k : nat) :
  t_pc t = AtCheck ->
  t_io t = Some f ->
  attached (w_proc w) f d i ->
  (i_seekable i = true ->
   String.length (i_data i) < ofd_pos d ->
   all_return cfg (Text.lines_of (i_data i)) ->
   length (Text.lines_of (i_data i)) + 5 <= k ->
   _check_file_state (w_proc w) [] f = inr TRUNCATED /\
   t_io (exec cfg (repeat Resume k) (w, t)).2 = Some f /\
   t_trace (exec cfg (repeat Resume k) (w, t)).2 =
     t_trace t ++ EvSeek (fileno f) 0 ::
       flat_map (invocations (line_parsers cfg)) (Text.lines_of (i_data i)) /\
   w_store (exec cfg (repeat Resume k) (w, t)).1 =
     apply_lines (line_parsers cfg) (Text.lines_of (i_data i)) (w_store w)) /\
  (ofd_pos d <= String.length (i_data i) ->
   all_return cfg (Text.lines_of (Text.skip (ofd_pos d) (i_data i))) ->
   length (Text.lines_of (Text.skip (ofd_pos d) (i_data i))) + 2 <= k ->
   _check_file_state (w_proc w) [] f = inr NOCHANGE /\
   t_io (exec cfg (repeat Resume k) (w, t)).2 = Some f /\
   t_trace (exec cfg (repeat Resume k) (w, t)).2 =
     t_trace t ++
       flat_map (invocations (line_parsers cfg))
                (Text.lines_of (Text.skip (ofd_pos d) (i_data i))) /\
   w_store (exec cfg (repeat Resume k) (w, t)).1 =
     apply_lines (line_parsers cfg)
       (Text.lines_of (Text.skip (ofd_pos d) (i_data i))) (w_store w)) /\
  w_store (track_file (defaults test_log [basic_line_parser]) (scenario_C 6)
             (begin (one_file test_log 100 ("xx" +:+ nl)))).1 = ["xx"; "y"] /\
  w_store (track_file (defaults test_log [basic_line_parser])
             scenario_C_polled
             (begin (one_file test_log 100 ("x" +:+ nl)))).1 = ["x"; "y"] /\
  w_store (track_file (defaults test_log [basic_line_parser]) (scenario_C 6)
             (begin (one_file test_log 100 ("x" +:+ nl)))).1 = ["x"] /\
  w_store (track_file (defaults test_log [basic_line_parser]) cut_to_first_line
             (begin (one_file test_log 100
                       ("l1" +:+ nl +:+ "l2" +:+ nl)))).1 = ["l1"; "l2"; "l1"].
Proof.
  intros Hpc Hio Hat.
  assert (H0 : Holds (w, t) AtCheck (w_store w) (t_trace t) f (i_data i) (ofd_pos d)).
  { repeat split; try done. by exists d, i. }
  split; [|split; [|by vm_compute]].
  - intros Hseek Hlt Hok Hk.
    destruct (resume_check_truncated cfg _ _ _ _ _ _ H0 Hlt) as [Hc H1].
    { intros d' i' E. destruct Hat as [Hf _]. simpl in E. congruence. }
    split; [exact Hc|].
    apply (resume_seek0 cfg) in H1. apply (resume_sleep cfg) in H1.
    apply (deliver_from_check cfg _ _ _ _ _ 0 (k - 3)) in H1;
      simpl; try done; try lia.
    destruct H1 as (l' & _ & _ & Hs & Htr & Hio' & _).
    replace k with (1 + (1 + (1 + (k - 3)))) by lia.
    rewrite !repeat_resume_add, !exec_app.
    rewrite !exec_one.
    rewrite Hio', Htr, Hs, <- app_assoc. repeat split; try done.
  - intros Hle Hok Hk. split.
    + rewrite (check_attached _ _ _ _ Hat).
      assert ((Z.of_nat (String.length (i_data i)) <? Z.of_nat (ofd_pos d))%Z
              = false) as -> by (apply Z.ltb_ge; lia).
      by destruct (i_seekable i).
    + destruct (deliver_from_check cfg _ _ _ _ _ _ k H0 Hle Hok Hk)
        as (l' & _ & _ & Hs & Htr & Hio' & _).
      by rewrite Hio', Htr, Hs.
Qed.

(** *** One handle at a time *)







Lemma neutral_seek fd pos : neutral [EvSeek fd pos].
Proof. done. Qed.






















End WithStore.

End TrackerFacts.

(** ** The classifier and [track_file], on examples *)
Module TrackerExamples.

Import OS Tracker Scenarios.

(** C3 on a concrete file: "b\n" is appended to [test.log] between the
    two stats of the classifier. *)
Lemma check_file_state_racing_append_different_witness :
  _check_file_state opened [Append test_log ("b" +:+ nl)] opened_file
    = inr DIFFERENT /\
  _check_file_state opened [] opened_file <> inr DIFFERENT /\
  _check_file_state (env_proc (Append test_log ("b" +:+ nl)) opened) []
    opened_file <> inr DIFFERENT.
Proof.
  apply (ClassifierFacts.check_file_state_racing_append_different
           opened opened_file {| ofd_id := (2049, 100)%Z; ofd_pos := 0 |}
           (regular ("a" +:+ nl)) ("b" +:+ nl)).
  - vm_compute; reflexivity.
  - vm_compute; reflexivity.
  - discriminate.
Defined.

(** What that answer costs: the tracker has read "a\n" and polls while
    "b\n" is being appended; it closes the file, opens it again and hands
    over "a\n" a second time.  With the same write between two polls "a"
    is handed over once. *)
Lemma racing_append_redelivers :
  w_store (track_file (defaults test_log [basic_line_parser])
             (repeat Resume 5 ++ [Race [Append test_log ("b" +:+ nl)]]
                ++ repeat Resume 7)
             (begin (one_file test_log 100 ("a" +:+ nl)))).1
    = ["a"; "a"; "b"] /\
  w_store (track_file (defaults test_log [basic_line_parser])
             (repeat Resume 5 ++ [Env (Append test_log ("b" +:+ nl))]
                ++ repeat Resume 7)
             (begin (one_file test_log 100 ("a" +:+ nl)))).1
    = ["a"; "b"].
Proof. by vm_compute. Qed.

(** C4, as stated, fails: with the path made unreadable, the stat of the
    path raises [PermissionError] and so does [_check_file_state]; no file
    state is returned. *)
Lemma check_file_state_permission_denied_raises :
  stat_path (p_fs denied) (name opened_file) = inl PermissionError /\
  _check_file_state denied [] opened_file = inl PermissionError /\
  _check_file_state denied [] opened_file <> inr DELETED.
Proof. vm_compute. repeat split; discriminate. Defined.

(** The amended C4 on the same process. *)
Lemma check_file_state_stat_failure_witness :
  _check_file_state denied [] opened_file = inl PermissionError.
Proof.
  apply (proj2 (ClassifierFacts.check_file_state_stat_failure
                  denied [] opened_file PermissionError
                  ltac:(vm_compute; reflexivity))).
  discriminate.
Defined.



(** C2, as stated, fails on scenario A: the parser receives "a\n", with
    its terminator, and then "b", the text after the last terminator,
    which the claim says is held back. *)
Lemma scenario_A_partial_line_delivered :
  w_store (track_file (defaults test_log [keep_line])
                      (repeat Resume 5) scenario_A).1 = ["a" +:+ nl; "b"] /\
  Text.spec_delivered_lines ("a" +:+ nl +:+ "b") = ["a"] /\
  w_store (track_file (defaults test_log [keep_line])
                      (repeat Resume 5) scenario_A).1 <>
    Text.spec_delivered_lines ("a" +:+ nl +:+ "b") /\
  w_store (track_file (defaults test_log [keep_line])
                      (repeat Resume 5) scenario_A).1 <> ["a"; "b"].
Proof. vm_compute. repeat split; discriminate. Defined.

(** The amended C2 on scenario A. *)
Lemma track_file_delivers_lines_as_read_witness :
  delivered (t_trace (track_file (defaults test_log [keep_line])
                                 (repeat Resume 5) scenario_A).2) =
    [(0, "a" +:+ nl); (0, "b")].
Proof.
  apply (TrackerFacts.track_file_delivers_lines_as_read
           (defaults test_log [keep_line]) scenario_A (2049, 100)%Z
           (regular ("a" +:+ nl +:+ "b")) 5).
  - reflexivity.
  - vm_compute; reflexivity.
  - repeat constructor.
  - simpl; lia.
Defined.

(** C5, as stated, fails twice.  On scenario C: after "x\n" the read
    offset is 2, the rewritten file "y\n" has size 2, the offset is not
    greater than the size, and the classifier answers NOCHANGE; "y" is
    never read.  And a truncation does bring lines back: "l1\nl2\n" cut
    down to "l1\n" is TRUNCATED, and "l1" is handed over a second
    time. *)
Lemma scenario_C_same_length_rewrite_missed :
  w_store (track_file (defaults test_log [basic_line_parser]) (scenario_C 40)
             (begin (one_file test_log 100 ("x" +:+ nl)))).1 = ["x"] /\
  w_store (track_file (defaults test_log [basic_line_parser]) (scenario_C 40)
             (begin (one_file test_log 100 ("x" +:+ nl)))).1 <> ["x"; "y"] /\
  w_store (track_file (defaults test_log [basic_line_parser])
             cut_to_first_line
             (begin (one_file test_log 100
                       ("l1" +:+ nl +:+ "l2" +:+ nl)))).1
    = ["l1"; "l2"; "l1"].
Proof. vm_compute. split; [reflexivity | split; [discriminate|reflexivity]]. Defined.

(** However long the tracker goes on polling after that rewrite. *)
Lemma scenario_C_same_length_rewrite_never_noticed (k : nat) :
  w_store (track_file (defaults test_log [basic_line_parser]) (scenario_C k)
             (begin (one_file test_log 100 ("x" +:+ nl)))).1 = ["x"].
Proof.
  unfold track_file, scenario_C. rewrite app_assoc, TrackerFacts.exec_app.
  destruct (TrackerFacts.idle_forever
              (defaults test_log [basic_line_parser]) k
              (exec (defaults test_log [basic_line_parser])
                 (repeat Resume 4 ++ [Env (Rewrite test_log ("y" +:+ nl))])
                 (begin (one_file test_log 100 ("x" +:+ nl)), start))
              AtSleep ["x"] [EvOpen 3; EvCall 0 ("x" +:+ nl)] opened_file
              ("y" +:+ nl))
    as (l' & _ & _ & Hs & _).
  - unfold idle_pc. tauto.
  - repeat split.
    exists {| ofd_id := (2049, 100)%Z; ofd_pos := 2 |}, (regular ("y" +:+ nl)).
    repeat split; vm_compute; reflexivity.
  - exact Hs.
Qed.

(** The amended C5 on "xx\n" rewritten with "y\n". *)
Lemma track_file_truncated_rereads_witness :
  _check_file_state (w_proc after_truncation.1) [] opened_file
    = inr TRUNCATED /\
  w_store (exec (defaults test_log [basic_line_parser]) (repeat Resume 6)
                after_truncation).1 = ["xx"; "y"].
Proof.
  pose proof (TrackerFacts.track_file_truncated_rereads
                (defaults test_log [basic_line_parser])
                after_truncation.1 after_truncation.2 opened_file
                {| ofd_id := (2049, 100)%Z; ofd_pos := 3 |}
                (regular ("y" +:+ nl)) 6) as H.
  destruct H as (H & _).
  - reflexivity.
  - reflexivity.
  - split; vm_compute; reflexivity.
  - destruct H as (H1 & _ & _ & H2).
    + reflexivity.
    + simpl; lia.
    + repeat constructor.
    + simpl; lia.
    + split; [exact H1 | exact H2].
Defined.



End TrackerExamples.
(** ** The task group of [track_async] *)
Module SupervisorFacts.

Import OS Tracker Supervisor TrackerFacts.

Section WithStore.

Context {S : Type}.
Implicit Types (cfg : config S) (w : world S) (t : tracker).
Implicit Types (g : group S) (tk : task S).

(** *** Cancelling a tracker *)


Lemma step_finished cfg w t :
  is_finished t = true ->
  forall i, (step cfg i (w, t)).2 = t.
Proof.
  unfold is_finished. intros H i.
  destruct (t_pc t) eqn:E; try done.
  destruct i; simpl; unfold resume_racing, resume, throw_cancel;
    rewrite ?E; try done.
  by destruct (timeout cfg).
Qed.

(** *** One event of the loop *)

Lemma run_task_spec i between g :
  (run_task i between g = g /\
   forall tk, g_tasks g !! i = Some tk -> is_finished (tk_state tk) = true) \/
  exists tk w' t',
    g_tasks g !! i = Some tk /\ is_finished (tk_state tk) = false /\
    step (tk_cfg tk)
         (if g_aborting g then Cancel
          else match between with None => Resume | Some b => Race b end)
         (g_world g, tk_state tk) = (w', t') /\
    run_task i between g
      = set_task g w' i {| tk_cfg := tk_cfg tk; tk_state := t' |}.
Proof.
  unfold run_task. destruct (g_tasks g !! i) as [tk|] eqn:Ei.
  - destruct (is_finished (tk_state tk)) eqn:Ef.
    + left. split; [done|]. by intros tk' [= <-].
    + right. destruct (step _ _ _) as [w' t'] eqn:Es.
      by exists tk, w', t'.
  - left. by split.
Qed.

Lemma on_task_done_spec i g :
  on_task_done i g = g \/
  exists tk o,
    g_tasks g !! i = Some tk /\ i ∈ g_pending g /\
    t_pc (tk_state tk) = Finished o /\
    ((forall e, o = Raised e -> e = CancelledError) /\
     on_task_done i g = discard g i \/
     exists e, o = Raised e /\ e <> CancelledError /\
       on_task_done i g =
         if g_aborting g then record_error (discard g i) e
         else set_cancel (abort (record_error (discard g i) e)) true).
Proof.
  unfold on_task_done. destruct (g_tasks g !! i) as [tk|] eqn:Ei; [|by left].
  case_bool_decide; [|by left].
  destruct (t_pc (tk_state tk)) as [| | | | | | | |o] eqn:Epc; try by left.
  right. exists tk, o. split; [done|]. split; [done|]. split; [done|].
  destruct o as [|e].
  { left. by split. }
  destruct e; try (right; eexists; split; [done|]; split; [done|]; done).
  left. split; [|done]. by intros e [= <-].
Qed.

Lemma wake_spec g :
  wake g = g \/
  (g_result g = None /\
   exists g',
     (g' = g /\ g_cancel g = false \/
      g' = set_cancel g false /\ g_cancel g = true /\ g_aborting g = true \/
      g' = abort (set_propagate (set_cancel g false)) /\
        g_cancel g = true /\ g_aborting g = false) /\
     (wake g = g' /\ g_pending g <> ∅ \/
      wake g = finish g' /\ g_pending g = ∅)).
Proof.
  unfold wake, none_pending. destruct (g_result g) eqn:Er; [by left|].
  right. split; [done|].
  destruct (g_cancel g) eqn:Ec.
  - destruct (g_aborting g) eqn:Ea; simpl; case_bool_decide;
      eexists; (split; [eauto|]); eauto.
  - case_bool_decide; eexists; (split; [eauto|]); eauto.
Qed.

Lemma expire_spec g :
  expire g = g \/
  (exists z, g_timeout g = Some z) /\ g_result g = None /\
  g_expired g = false /\ expire g = set_expired (set_cancel g true).
Proof.
  unfold expire. destruct (g_timeout g) as [z|]; [|by left].
  destruct (g_result g); [by left|].
  destruct (g_expired g); [by left|]. right. eauto.
Qed.

(** What an event leaves alone. *)
Lemma sched_step_frame g ev :
  g_timeout (sched_step ev g) = g_timeout g /\
  length (g_tasks (sched_step ev g)) = length (g_tasks g) /\
  map tk_cfg (g_tasks (sched_step ev g)) = map tk_cfg (g_tasks g).
Proof.
  assert (Hrun : forall i between,
    g_timeout (run_task i between g) = g_timeout g /\
    length (g_tasks (run_task i between g)) = length (g_tasks g) /\
    map tk_cfg (g_tasks (run_task i between g)) = map tk_cfg (g_tasks g)).
  { intros i between.
    destruct (run_task_spec i between g)
      as [[-> _]|(tk & w' & t' & Ei & _ & _ & ->)]; [done|].
    simpl. rewrite length_insert, list_fmap_insert. simpl.
    split; [done|]. split; [done|].
    apply list_insert_id. by rewrite list_lookup_fmap, Ei. }
  destruct ev as [i|i between|i| | |a]; simpl; try apply Hrun; try done.
  - destruct (on_task_done_spec i g)
      as [->|(tk & o & _ & _ & _ & [[_ ->]|(e & _ & _ & ->)])]; try done.
    by destruct (g_aborting g).
  - destruct (wake_spec g)
      as [->|(_ & g' & Hg' & [[-> _]|[-> _]])]; try done;
      by destruct Hg' as [[-> _]|[[-> _]|[-> _]]].
  - by destruct (expire_spec g) as [->|(_ & _ & _ & ->)].
Qed.

(** *** What every reachable group satisfies *)

(** A task that can still run has not had its done callback. *)
Lemma unfinished_pending g i tk :
  group_inv g ->
  g_tasks g !! i = Some tk -> is_finished (tk_state tk) = false ->
  i ∈ g_pending g.
Proof.
  intros (Ha & _) Hi Hf. destruct (decide (i ∈ g_pending g)) as [|Hn]; [done|].
  destruct (Ha i) as (tk' & Hi' & Hf'); [by apply lookup_lt_Some in Hi|done|].
  congruence.
Qed.

Lemma run_task_inv i between g : group_inv g -> group_inv (run_task i between g).
Proof.
  intros Hinv.
  destruct (run_task_spec i between g)
    as [[-> _]|(tk & w' & t' & Ei & Ef & _ & ->)]; [done|].
  pose proof (unfinished_pending g i tk Hinv Ei Ef) as Hp.
  destruct Hinv as (Ha & Hb & Hc & Hrest).
  split; [|split; [|split; [|exact Hrest]]]; simpl.
  - intros i0 Hlt Hn. rewrite length_insert in Hlt.
    assert (i0 <> i) by (intros ->; done).
    rewrite list_lookup_insert_ne by done. by apply Ha.
  - intros i0 Hi0. rewrite length_insert. by apply Hb.
  - intros e. rewrite Hc. split; intros (Hne & i0 & tk0 & Hi0 & Hn & Hpc);
      (split; [done|]); exists i0, tk0;
      assert (i0 <> i) by (intros ->; done);
      rewrite list_lookup_insert_ne in *; done.
Qed.

Lemma discard_inv g i tk o :
  group_inv g ->
  g_tasks g !! i = Some tk -> i ∈ g_pending g ->
  t_pc (tk_state tk) = Finished o ->
  (forall e, o = Raised e -> e = CancelledError) ->
  group_inv (discard g i).
Proof.
  intros (Ha & Hb & Hc & Hd & He & Hf & Hg & Hh & Hi & Hj) Ei Hp Hpc Ho.
  split; [|split; [|split; [|split; [|split; [|split; [|split; [|split;
    [|split]]]]]]]]; simpl; try done.
  - intros i0 Hlt Hn. destruct (decide (i0 = i)) as [->|Hne].
    + exists tk. split; [done|]. unfold is_finished. by rewrite Hpc.
    + apply Ha; [done|]. set_solver.
  - intros i0 Hi0. apply Hb. set_solver.
  - intros e. rewrite Hc. split; intros (Hne & i0 & tk0 & Hi0 & Hn & Hpc0);
      (split; [done|]).
    + exists i0, tk0. split; [done|]. split; [set_solver|done].
    + destruct (decide (i0 = i)) as [->|Hne0].
      * rewrite Ei in Hi0. injection Hi0 as <-. rewrite Hpc in Hpc0.
        injection Hpc0 as ->. by specialize (Ho e eq_refl).
      * exists i0, tk0. split; [done|]. split; [set_solver|done].
  - intros o' Hr. destruct (Hj o' Hr) as [Hpe _]. set_solver.
Qed.

Lemma record_error_inv g i tk e :
  group_inv g ->
  g_tasks g !! i = Some tk -> i ∈ g_pending g ->
  t_pc (tk_state tk) = Finished (Raised e) ->
  e <> CancelledError ->
  group_inv (if g_aborting g then record_error (discard g i) e
             else set_cancel (abort (record_error (discard g i) e)) true).
Proof.
  intros (Ha & Hb & Hc & Hd & He & Hf & Hg & Hh & Hi & Hj) Ei Hp Hpc Hne.
  assert (Ha' : forall i0, i0 < length (g_tasks g) ->
            (i0 ∉ g_pending g ∖ {[i]}) ->
            exists tk0, g_tasks g !! i0 = Some tk0 /\
                        is_finished (tk_state tk0) = true).
  { intros i0 Hlt Hn. destruct (decide (i0 = i)) as [->|Hne0].
    + exists tk. split; [done|]. unfold is_finished. by rewrite Hpc.
    + apply Ha; [done|]. set_solver. }
  assert (Hb' : forall i0, i0 ∈ g_pending g ∖ {[i]} -> i0 < length (g_tasks g)).
  { intros i0 Hi0. apply Hb. set_solver. }
  assert (Hc' : forall e0, In e0 (g_errors g ++ [e]) <->
            e0 <> CancelledError /\
            exists i0 tk0, g_tasks g !! i0 = Some tk0 /\
              (i0 ∉ g_pending g ∖ {[i]}) /\
              t_pc (tk_state tk0) = Finished (Raised e0)).
  { intros e0. rewrite in_app_iff, Hc. simpl. split.
    - intros [(Hne0 & i0 & tk0 & Hi0 & Hn & Hpc0)|[<-|[]]].
      + split; [done|]. exists i0, tk0. split; [done|]. split; [set_solver|done].
      + split; [done|]. exists i, tk. split; [done|]. split; [set_solver|done].
    - intros (Hne0 & i0 & tk0 & Hi0 & Hn & Hpc0).
      destruct (decide (i0 = i)) as [->|Hne1].
      + right. left. rewrite Ei in Hi0. injection Hi0 as <-.
        rewrite Hpc in Hpc0. by injection Hpc0.
      + left. split; [done|]. exists i0, tk0. split; [done|].
        split; [set_solver|done]. }
  assert (Hj' : forall o, g_result g = Some o ->
            g_pending g ∖ {[i]} = ∅ /\ False).
  { intros o Hr. destruct (Hj o Hr) as [Hpe _]. set_solver. }
  assert (Hnil : g_errors g ++ [e] <> []) by (by destruct (g_errors g)).
  destruct (g_aborting g) eqn:Eab;
    (split; [|split; [|split; [|split; [|split; [|split; [|split; [|split;
      [|split]]]]]]]]); simpl; try done; try tauto;
    intros o Hr; by destruct (Hj' o Hr).
Qed.

Lemma on_task_done_inv i g : group_inv g -> group_inv (on_task_done i g).
Proof.
  intros Hinv.
  destruct (on_task_done_spec i g)
    as [->|(tk & o & Ei & Hp & Hpc & [[Ho ->]|(e & -> & Hne & ->)])];
    [done| |].
  - by apply (discard_inv g i tk o).
  - by apply (record_error_inv g i tk e).
Qed.

Lemma finish_inv g :
  group_inv g -> g_cancel g = false -> g_pending g = ∅ ->
  group_inv (finish g).
Proof.
  intros (Ha & Hb & Hc & Hd & He & Hf & Hg & Hh & Hi & Hj) Hcn Hp.
  split; [|split; [|split; [|split; [|split; [|split; [|split; [|split;
    [|split]]]]]]]]; simpl; try done.
  - intros Hx Herr. right. destruct (Hi Hx Herr) as [[_ ?]|?]; [congruence|done].
  - intros o [= <-]. done.
Qed.

Lemma wake_inv g : group_inv g -> group_inv (wake g).
Proof.
  intros Hinv.
  destruct (wake_spec g) as [->|(Hr & g' & Hg' & Hw)]; [done|].
  assert (H' : group_inv g' /\ g_cancel g' = false /\ g_pending g' = g_pending g).
  { destruct Hinv as (Ha & Hb & Hc & Hd & He & Hf & Hg & Hh & Hi & Hj).
    destruct Hg' as [[-> Hcn]|[(-> & Hcn & Hab)|(-> & Hcn & Hab)]].
    - done.
    - split; [|done].
      split; [|split; [|split; [|split; [|split; [|split; [|split; [|split;
        [|split]]]]]]]]; simpl; try done.
      intros Hx Herr. right. destruct (Hd Hab) as [?|?]; done.
    - split; [|done].
      split; [|split; [|split; [|split; [|split; [|split; [|split; [|split;
        [|split]]]]]]]]; simpl; try done.
      + intros _. by right.
      + intros _. split; [done|]. destruct (Hg Hcn); [congruence|done].
      + intros _ _. by right.
      + intros o Ho. congruence. }
  destruct H' as (Hinv' & Hcn' & Hp').
  destruct Hw as [[-> _]|[-> Hpe]]; [done|].
  apply finish_inv; congruence.
Qed.

Lemma expire_inv g : group_inv g -> group_inv (expire g).
Proof.
  intros Hinv.
  destruct (expire_spec g) as [->|([z Hz] & Hr & Hx & ->)]; [done|].
  destruct Hinv as (Ha & Hb & Hc & Hd & He & Hf & Hg & Hh & Hi & Hj).
  split; [|split; [|split; [|split; [|split; [|split; [|split; [|split;
    [|split]]]]]]]]; simpl; try done.
  - intros Hp. by destruct (Hf Hp).
  - intros _. by right.
  - intros _. by rewrite Hz.
  - intros _ _. by left.
  - intros o Ho. congruence.
Qed.

Lemma sched_step_inv g ev : group_inv g -> group_inv (sched_step ev g).
Proof.
  intros H. destruct ev as [i|i between|i| | |a]; simpl.
  - by apply run_task_inv.
  - by apply run_task_inv.
  - by apply on_task_done_inv.
  - by apply wake_inv.
  - by apply expire_inv.
  - done.
Qed.

Lemma init_inv configs poll_delay tail timeout w :
  group_inv (init configs poll_delay tail timeout w).
Proof.
  split; [|split; [|split; [|split; [|split; [|split; [|split; [|split;
    [|split]]]]]]]]; simpl; try done.
  - intros i Hlt Hn. rewrite length_map in Hlt. exfalso. apply Hn.
    apply elem_of_list_to_set, elem_of_seq. lia.
  - intros i Hi. rewrite length_map.
    apply elem_of_list_to_set, elem_of_seq in Hi. lia.
  - intros e. split; [done|]. intros (_ & i & tk & Hi & Hn & Hpc).
    by apply list_lookup_fmap_Some in Hi as (item & -> & _).
  - intros o Ho. destruct configs; [|done]. by injection Ho as <-.
Qed.


Lemma sched_exec_cons ev (sch : list sched) g :
  sched_exec (ev :: sch) g = sched_exec sch (sched_step ev g).
Proof. reflexivity. Qed.

Lemma sched_exec_inv sch :
  forall g, group_inv g ->
  group_inv (sched_exec sch g) /\
  g_timeout (sched_exec sch g) = g_timeout g /\
  length (g_tasks (sched_exec sch g)) = length (g_tasks g) /\
  map tk_cfg (g_tasks (sched_exec sch g)) = map tk_cfg (g_tasks g).
Proof.
  induction sch as [|ev sch IH]; intros g H; [done|]. rewrite sched_exec_cons.
  destruct (IH _ (sched_step_inv g ev H)) as (? & ? & ? & ?).
  destruct (sched_step_frame g ev) as (? & ? & ?).
  split; [done|]. split; [congruence|]. split; congruence.
Qed.

Lemma track_async_inv configs poll_delay tail timeout sch w :
  group_inv (track_async configs poll_delay tail timeout sch w) /\
  g_timeout (track_async configs poll_delay tail timeout sch w) = timeout /\
  length (g_tasks (track_async configs poll_delay tail timeout sch w))
    = length configs.
Proof.
  unfold track_async.
  destruct (sched_exec_inv sch _ (init_inv configs poll_delay tail timeout w))
    as (? & ? & Hl & _).
  simpl in Hl. rewrite length_map in Hl. done.
Qed.

(** *** What an event cannot undo *)





(** *** The group while it aborts *)





Lemma runs_app j (a b : list sched) :
  runs j (a ++ b) <-> runs j a \/ runs j b.
Proof.
  unfold runs. setoid_rewrite in_app_iff. split.
  - intros [[?|?]|[x [?|?]]]; eauto 6.
  - intros [[?|[x ?]]|[?|[x ?]]]; eauto 6.
Qed.


(** *** How the group comes to its end *)








End WithStore.
End SupervisorFacts.

(** ** Loading the parsers and running *)
Module CliFacts.

Import Tracker Supervisor Cli.

Lemma remove_last_snoc (x : string) (l : list string) :
  remove_last x (l ++ [x]) = Some l.
Proof.
  induction l as [|y l IH]; simpl.
  - by rewrite String.eqb_refl.
  - by rewrite IH.
Qed.

Section Loader.

Context {S M Mod : Type}.
Variable realpath : string -> string.
Variable isdir : string -> bool.
Variable glob_py : string -> list string.
Variable dirname : string -> string.
Variable module_name : string -> string.
Variable import_module : string -> interp M -> interp M * (exn + Mod).
Variable getattr_items :
  Mod -> string -> exn + list (string * list (handler S)).

Lemma load_files_sys_path parser_files config_variable :
  (forall module st, sys_path (import_module module st).1 = sys_path st) ->
  forall configs st,
  sys_path (load_files module_name import_module getattr_items
              parser_files config_variable configs st).1 = sys_path st.
Proof.
  intros Himport.
  induction parser_files as [|file_path rest IH]; intros configs st; [done|].
  simpl. pose proof (Himport (module_name file_path) st) as Hi.
  destruct (import_module (module_name file_path) st) as [st' [e|m]];
    simpl in Hi; [done|].
  destruct (getattr_items m config_variable) as [e|items]; [done|].
  by rewrite IH.
Qed.

Lemma load_parsers_sys_path parsers config_variable :
  (forall module st, sys_path (import_module module st).1 = sys_path st) ->
  forall configs st,
  sys_path (load_parsers realpath isdir glob_py dirname module_name
              import_module getattr_items parsers config_variable
              configs st).1 = sys_path st.
Proof.
  intros Himport.
  induction parsers as [|parser rest IH]; intros configs st; [done|].
  simpl.
  destruct (if isdir (realpath parser)
            then (realpath parser, glob_py (realpath parser))
            else (dirname (realpath parser), [realpath parser]))
    as [path_addition parser_files].
  pose proof (load_files_sys_path parser_files config_variable Himport configs
                (set_sys_path st (sys_path st ++ [path_addition]))) as Hf.
  destruct (load_files _ _ _ parser_files config_variable configs _)
    as [st2 r]. simpl in Hf.
  assert (Hr : sys_path (restore_path path_addition st2) = sys_path st).
  { unfold restore_path. by rewrite Hf, remove_last_snoc. }
  destruct r as [e|configs']; [done|].
  by rewrite IH.
Qed.

(** C10, as the code has it.  When importing a parser module does not
    itself change [sys.path], then whatever the parsers, and whether or
    not an import or the lookup of the configuration variable raises,
    [sys.path] after [_load_parser_configs] is [sys.path] before it:
    every path the function appends is removed again by its [finally]
    clause. *)
Theorem load_parser_configs_restores_sys_path parsers config_variable st :
  (forall module st0, sys_path (import_module module st0).1 = sys_path st0) ->
  sys_path (_load_parser_configs realpath isdir glob_py dirname module_name
              import_module getattr_items parsers config_variable st).1
  = sys_path st.
Proof. intros H. by apply load_parsers_sys_path. Qed.

End Loader.

Section Run.

Context {S M Mod : Type}.
Variable realpath : string -> string.
Variable isdir : string -> bool.
Variable glob_py : string -> list string.
Variable dirname : string -> string.
Variable module_name : string -> string.
Variable import_module : string -> interp M -> interp M * (exn + Mod).
Variable getattr_items :
  Mod -> string -> exn + list (string * list (handler S)).



End Run.

End CliFacts.

(** ** [track_async], [run] and the loader, on examples *)
Module SupervisorExamples.

Import OS Tracker Supervisor Cli Scenarios.


(** Between the failure of a tracker and its done callback the siblings
    run on as before: here the second one fails on its own, and the group
    has two errors. *)
Lemma both_fail_before_abort :
  track both_missing 1 false None
    [Run 0; Run 1; Callback 0; Callback 1; Wake] present_only =
    Some (Raised (ExceptionGroup [FileNotFoundError; FileNotFoundError])) /\
  track both_missing 1 false None
    [Run 0; Callback 0; Run 1; Callback 1; Wake] present_only =
    Some (Raised (ExceptionGroup [FileNotFoundError])).
Proof. by vm_compute. Qed.




(** C10, as stated, fails for a parser module that changes [sys.path]
    itself: one that appends a directory leaves it in [sys.path]; one
    that removes the directory of the parsers, which was in [sys.path]
    before the call, makes the [finally] clause remove the entry that
    was there before. *)
Lemma load_parser_configs_keeps_module_changes :
  sys_path python = ["/usr/lib/python3"; "/parsers"] /\
  sys_path (_load_parser_configs (fun p => p) (fun _ => false) (fun _ => [])
              parent_dir stem import_extra getattr_of
              ["/parsers/app.py"] "LOG_PARSER_CONFIG" python).1
    = ["/usr/lib/python3"; "/parsers"; "/extra"] /\
  sys_path (_load_parser_configs (fun p => p) (fun _ => false) (fun _ => [])
              parent_dir stem import_extra getattr_of
              ["/parsers/app.py"] "LOG_PARSER_CONFIG" python).1
    <> sys_path python /\
  sys_path (_load_parser_configs (fun p => p) (fun _ => false) (fun _ => [])
              parent_dir stem import_removing getattr_of
              ["/parsers/app.py"] "LOG_PARSER_CONFIG" python).1
    = ["/usr/lib/python3"].
Proof. vm_compute. repeat split; discriminate. Defined.

(** The amended C10: the second parser file cannot be imported. *)
Lemma load_parser_configs_restores_sys_path_witness :
  sys_path (_load_parser_configs (fun p => p) (fun _ => false) (fun _ => [])
              parent_dir stem import_app getattr_of
              ["/parsers/app.py"; "/parsers/absent.py"] "LOG_PARSER_CONFIG"
              python).1 = ["/usr/lib/python3"; "/parsers"] /\
  (_load_parser_configs (fun p => p) (fun _ => false) (fun _ => [])
     parent_dir stem import_app getattr_of
     ["/parsers/app.py"; "/parsers/absent.py"] "LOG_PARSER_CONFIG"
     python).2 = inl ModuleNotFoundError.
Proof.
  split; [|reflexivity].
  apply (CliFacts.load_parser_configs_restores_sys_path
           (fun p => p) (fun _ => false) (fun _ => []) parent_dir stem
           import_app getattr_of).
  intros module st. unfold import_app. by destruct (String.eqb module "app").
Defined.

End SupervisorExamples.


(** ** More of [track_file]: appends, tail, replacement, deletion *)
Module TrackerMoreFacts.

Import OS Tracker TrackerMore TextFacts ClassifierFacts TrackerFacts.

Section WithStore.

Context {S : Type}.
Implicit Types (lp : handler S) (lps : list (handler S)) (s : S).
Implicit Types (cfg : config S) (w : world S) (t : tracker).

(** *** Strings *)



(** *** From any idle control point *)

Lemma deliver_from_idle cfg st l s tr f data pos k :
  idle_pc l ->
  Holds st l s tr f data pos ->
  pos <= String.length data ->
  all_return cfg (Text.lines_of (Text.skip pos data)) ->
  length (Text.lines_of (Text.skip pos data)) + 3 <= k ->
  exists l', idle_pc l' /\
    Holds (exec cfg (repeat Resume k) st) l'
      (apply_lines (line_parsers cfg) (Text.lines_of (Text.skip pos data)) s)
      (tr ++ flat_map (invocations (line_parsers cfg))
                      (Text.lines_of (Text.skip pos data)))
      f data (String.length data).
Proof.
  intros Hl H Hle Hok Hk.
  set (n := length (Text.lines_of (Text.skip pos data))) in *.
  destruct Hl as [->|[->| ->]].
  - replace k with (1 + (k - 1)) by lia.
    rewrite repeat_resume_add, exec_app, exec_one.
    apply deliver_from_check; try done; [by apply resume_sleep | fold n; lia].
  - apply deliver_from_check; try done. fold n. lia.
  - replace k with (Datatypes.S n + (k - Datatypes.S n)) by lia.
    rewrite repeat_resume_add, exec_app.
    apply (idle_forever cfg _ _ AtSleep); [unfold idle_pc; tauto|].
    by apply (drain cfg _ _ _ _ _ _ pos).
Qed.

(** *** Another process appends to the file *)



Lemma apply_lines_app lps (a b : list string) s :
  apply_lines lps (a ++ b) s = apply_lines lps b (apply_lines lps a s).
Proof. unfold apply_lines. apply fold_left_app. Qed.


(** *** Starting from the end *)

Lemma open_attached p path id i :
  resolve (p_fs p) path = inr (id, i) ->
  open_file p path =
    inr ({| name := path; fileno := p_next p |},
         {| p_fs := p_fs p;
            p_fds := <[p_next p := {| ofd_id := id; ofd_pos := 0 |}]> (p_fds p);
            p_next := Datatypes.S (p_next p) |}) /\
  attached {| p_fs := p_fs p;
              p_fds := <[p_next p := {| ofd_id := id; ofd_pos := 0 |}]> (p_fds p);
              p_next := Datatypes.S (p_next p) |}
           {| name := path; fileno := p_next p |}
           {| ofd_id := id; ofd_pos := 0 |} i.
Proof.
  intros Hr. unfold open_file. rewrite Hr. split; [done|].
  split; [|done]. unfold file_of. simpl. rewrite lookup_insert_eq. simpl.
  by rewrite (resolve_inode _ _ _ _ Hr).
Qed.

Lemma resume_open_tail cfg w id i :
  tail cfg = true ->
  i_seekable i = true ->
  resolve (p_fs (w_proc w)) (log_file cfg) = inr (id, i) ->
  Holds (exec cfg (repeat Resume 2) (w, start)) AtCheck (w_store w)
        [EvOpen (p_next (w_proc w));
         EvSeek (p_next (w_proc w)) (String.length (i_data i))]
        {| name := log_file cfg; fileno := p_next (w_proc w) |}
        (i_data i) (String.length (i_data i)).
Proof.
  intros Ht Hs Hr. destruct (open_attached _ _ _ _ Hr) as [Ho Hat].
  change (exec cfg (repeat Resume 2) (w, start))
    with (step cfg Resume (step cfg Resume (w, start))).
  assert (E1 : step cfg Resume (w, start) =
    (with_proc w
       {| p_fs := p_fs (w_proc w);
          p_fds := <[p_next (w_proc w) := {| ofd_id := id; ofd_pos := 0 |}]>
                     (p_fds (w_proc w));
          p_next := Datatypes.S (p_next (w_proc w)) |},
     goto (bind_io (emit start [EvOpen (p_next (w_proc w))])
                   {| name := log_file cfg; fileno := p_next (w_proc w) |})
          AtSeekEnd)).
  { simpl. unfold resume. simpl. rewrite Ho, Ht. unfold seekable.
    by rewrite (proj1 Hat), Hs. }
  rewrite E1. simpl. unfold resume. simpl. unfold seek_end.
  rewrite (proj1 Hat).
  repeat split; simpl; try done.
  eexists _, i. split; [by apply attached_set_pos|done].
Qed.

Lemma resume_open_fifo cfg w id i :
  i_seekable i = false ->
  resolve (p_fs (w_proc w)) (log_file cfg) = inr (id, i) ->
  Holds (step cfg Resume (w, start)) AtCheck (w_store w)
        [EvOpen (p_next (w_proc w))]
        {| name := log_file cfg; fileno := p_next (w_proc w) |}
        (i_data i) 0.
Proof.
  intros Hs Hr. destruct (open_attached _ _ _ _ Hr) as [Ho Hat].
  simpl. unfold resume. simpl. rewrite Ho. unfold seekable.
  rewrite (proj1 Hat), Hs.
  destruct (tail cfg); repeat split; simpl; try done;
    by exists {| ofd_id := id; ofd_pos := 0 |}, i.
Qed.






(** X2. On a stream that is not seekable (a named pipe) [tail] makes no
    difference: with either value the tracker reads from the beginning and
    delivers every line. *)
Theorem track_file_tail_ignored_on_pipe cfg w id i (k : nat) :
  i_seekable i = false ->
  resolve (p_fs (w_proc w)) (log_file cfg) = inr (id, i) ->
  all_return cfg (Text.lines_of (i_data i)) ->
  length (Text.lines_of (i_data i)) + 3 <= k ->
  delivered (t_trace (track_file cfg (repeat Resume k) w).2) =
    flat_map (fun line => imap (fun idx _ => (idx, line)) (line_parsers cfg))
             (Text.lines_of (i_data i)).
Proof.
  intros Hs Hr Hok Hk. unfold track_file.
  replace k with (1 + (k - 1)) by lia.
  rewrite repeat_resume_add, exec_app, exec_one.
  pose proof (resume_open_fifo cfg w id i Hs Hr) as H0.
  apply (deliver_from_check cfg _ _ _ _ _ 0 (k - 1)) in H0;
    simpl; try done; try lia.
  destruct H0 as (l' & _ & _ & _ & Htr & _). simpl in Htr. rewrite Htr.
  change (EvOpen ?x :: ?l) with ([EvOpen x] ++ l).
  by rewrite delivered_app, delivered_flat_invocations.
Qed.

(** *** The path stops naming the open file *)

Lemma holds_reads (st : world S * tracker) l s tr f data pos :
  Holds st l s tr f data pos ->
  exists id i,
    Reads st l s tr f id i pos (p_fs (w_proc st.1)) /\ i_data i = data /\
    resolve (p_fs (w_proc st.1)) (name f) = inr (id, i).
Proof.
  intros (Hpc & Hs & Htr & Hio & d & i & [Hf Hr] & Hd & Hp).
  exists (ofd_id d), i. repeat split; try done. by exists d.
Qed.


Lemma reads_create cfg (st : world S * tracker) l s tr f id i pos fs0
    path id2 i2 :
  inodes fs0 !! id2 = None ->
  Reads st l s tr f id i pos fs0 ->
  Reads (step cfg (Env (Create path id2 i2)) st) l s tr f id i pos
        (env_apply (Create path id2 i2) fs0).
Proof.
  destruct st as [w t].
  intros Hnew (Hpc & Hs & Htr & Hio & <- & d & Hf & Hid & Hp). simpl in *.
  repeat split; try done. exists d. split; [|done].
  destruct (file_of_inode _ _ _ _ Hf) as [Hfd Hi].
  unfold file_of. simpl. rewrite Hfd, Hnew. simpl.
  rewrite lookup_insert_ne; [by rewrite Hi|].
  intros ->. congruence.
Qed.

Lemma reads_sleep cfg (st : world S * tracker) s tr f id i pos fs0 :
  Reads st AtSleep s tr f id i pos fs0 ->
  Reads (step cfg Resume st) AtCheck s tr f id i pos fs0.
Proof.
  destruct st as [w t].
  intros (Hpc & Hs & Htr & Hio & Hw & H). simpl in *.
  unfold resume. rewrite Hpc, Hio. by repeat split.
Qed.

Lemma reads_read_eof cfg (st : world S * tracker) s tr f id i pos fs0 :
  Reads st AtRead s tr f id i pos fs0 ->
  Text.skip pos (i_data i) = EmptyString ->
  Reads (step cfg Resume st) AtSleep s tr f id i pos fs0.
Proof.
  destruct st as [w t].
  intros (Hpc & Hs & Htr & Hio & Hw & d & Hf & Hid & Hp) Hr. simpl in *.
  unfold resume. rewrite Hpc, Hio.
  unfold readline. rewrite Hf, Hp, Hr. simpl.
  repeat split; simpl; try done.
  eexists. split; [by apply file_of_set_pos|]. simpl. split; [done|lia].
Qed.


Lemma reads_check_different cfg (st : world S * tracker) s tr f id i pos fs0
    id2 i2 :
  Reads st AtCheck s tr f id i pos fs0 ->
  resolve fs0 (name f) = inr (id2, i2) ->
  id2 <> id ->
  Reads (step cfg Resume st) AtReclose s tr f id i pos fs0.
Proof.
  destruct st as [w t].
  intros (Hpc & Hs & Htr & Hio & Hw & d & Hf & Hid & Hp) Hr Hne. simpl in *.
  unfold resume. rewrite Hpc, Hio. rewrite <- Hw in Hr.
  rewrite (check_file_state_resolved _ _ _ _ _ _ Hr Hf).
  rewrite bool_decide_eq_false_2 by congruence.
  repeat split; try done. by exists d.
Qed.

(** A tracker that has read its file to the end gets to its next check
    within two steps. *)
Lemma reads_reach_check cfg (st : world S * tracker) l s tr f id i fs0 :
  idle_pc l ->
  Reads st l s tr f id i (String.length (i_data i)) fs0 ->
  exists j, j <= 2 /\
    Reads (exec cfg (repeat Resume j) st) AtCheck s tr f id i
          (String.length (i_data i)) fs0.
Proof.
  intros [->|[->| ->]] H.
  - exists 1. split; [lia|]. by apply reads_sleep.
  - exists 0. split; [lia|done].
  - exists 2. split; [lia|].
    change (exec cfg (repeat Resume 2) st)
      with (step cfg Resume (step cfg Resume st)).
    apply reads_sleep, reads_read_eof; [done|]. by apply skip_all.
Qed.


(** From the check that finds another file at the path to the first sleep
    on the new file. *)
Lemma replaced_reopens cfg (st : world S * tracker) s tr f id i pos fs0 id2 i2 :
  Reads st AtCheck s tr f id i pos fs0 ->
  name f = log_file cfg ->
  resolve fs0 (log_file cfg) = inr (id2, i2) ->
  id2 <> id ->
  Holds (exec cfg (repeat Resume 3) st) AtSleep s
    (tr ++ [EvClose (fileno f) true; EvOpen (p_next (w_proc st.1))])
    {| name := log_file cfg; fileno := p_next (w_proc st.1) |}
    (i_data i2) 0.
Proof.
  intros H Hn Hr Hne.
  change (exec cfg (repeat Resume 3) st)
    with (step cfg Resume (step cfg Resume (step cfg Resume st))).
  rewrite <- Hn in Hr.
  pose proof (reads_check_different cfg st s tr f id i pos fs0 id2 i2 H Hr Hne)
    as H1.
  assert (Hnext : p_next (w_proc (step cfg Resume st).1) = p_next (w_proc st.1)).
  { destruct st as [w t].
    destruct H as (Hpc & _ & _ & Hio & Hw & d & Hf & Hid & _). simpl in *.
    unfold resume. rewrite Hpc, Hio. rewrite <- Hw in Hr.
    rewrite (check_file_state_resolved _ _ _ _ _ _ Hr Hf).
    by rewrite bool_decide_eq_false_2 by congruence. }
  rewrite <- Hnext. rewrite Hn in Hr.
  destruct (step cfg Resume st) as [w t]. clear H Hnext.
  destruct H1 as (Hpc & Hs & Htr & Hio & Hw & d & Hf & Hid & Hp).
  simpl in Hpc, Hs, Htr, Hio, Hw, Hf. simpl w_proc. simpl fst.
  destruct (file_of_inode _ _ _ _ Hf) as [Hfd _].
  set (p' := {| p_fs := p_fs (w_proc w);
                p_fds := delete (fileno f) (p_fds (w_proc w));
                p_next := p_next (w_proc w) |}).
  assert (E2 : step cfg Resume (w, t) =
    (with_proc w p', goto (emit t [EvClose (fileno f) true]) AtReopen)).
  { simpl. unfold resume. rewrite Hpc, Hio. unfold aclose. by rewrite Hfd. }
  rewrite E2.
  assert (Hr' : resolve (p_fs p') (log_file cfg) = inr (id2, i2))
    by (by rewrite <- Hw in Hr).
  destruct (open_attached p' (log_file cfg) id2 i2 Hr') as [Ho Hat].
  simpl. unfold resume. simpl. rewrite Hio, Ho.
  repeat split; simpl; try done.
  - by rewrite Htr, <- app_assoc.
  - by exists {| ofd_id := id2; ofd_pos := 0 |}, i2.
Qed.

(** *** The tracker never writes to the file system *)

Lemma open_file_fs p path f p' :
  open_file p path = inr (f, p') -> p_fs p' = p_fs p.
Proof.
  unfold open_file. destruct (resolve (p_fs p) path) as [e|[id i]]; [done|].
  by intros [= <- <-].
Qed.

Lemma seek_end_fs p f p' : seek_end p f = inr p' -> p_fs p' = p_fs p.
Proof.
  unfold seek_end. destruct (file_of p f) as [e|[d i]]; [done|].
  by intros [= <-].
Qed.

Lemma seek_start_fs p f p' : seek_start p f = inr p' -> p_fs p' = p_fs p.
Proof.
  unfold seek_start. destruct (file_of p f) as [e|[d i]]; [done|].
  by intros [= <-].
Qed.

Lemma readline_fs p f line p' :
  readline p f = inr (line, p') -> p_fs p' = p_fs p.
Proof.
  unfold readline. destruct (file_of p f) as [e|[d i]]; [done|].
  destruct (Text.readline_from _). by intros [= <- <-].
Qed.

Lemma aclose_fs p f r p' : aclose p f = (r, p') -> p_fs p' = p_fs p.
Proof.
  unfold aclose. destruct (p_fds p !! fileno f); by intros [= <- <-].
Qed.

Lemma finally_fs w t o : p_fs (w_proc (finally w t o).1) = p_fs (w_proc w).
Proof.
  unfold finally. destruct (t_io t) as [f|]; [|done].
  destruct (aclose (w_proc w) f) as [r p'] eqn:E. simpl.
  by apply aclose_fs in E.
Qed.

Lemma resume_fs cfg w t :
  p_fs (w_proc (resume cfg w t).1) = p_fs (w_proc w).
Proof.
  unfold resume, on_file_state.
  repeat match goal with
  | |- context [finally ?w' ?t' ?o] =>
      let H := fresh in
      pose proof (finally_fs w' t' o) as H;
      destruct (finally w' t' o)
  | |- context [match ?x with _ => _ end] => destruct x eqn:?
  end; simpl in *; try done;
  repeat match goal with
  | H : open_file _ _ = inr _ |- _ => apply open_file_fs in H
  | H : seek_end _ _ = inr _ |- _ => apply seek_end_fs in H
  | H : seek_start _ _ = inr _ |- _ => apply seek_start_fs in H
  | H : readline _ _ = inr _ |- _ => apply readline_fs in H
  | H : aclose _ _ = _ |- _ => apply aclose_fs in H
  end; congruence.
Qed.

Lemma exec_resume_fs cfg (k : nat) :
  forall st : world S * tracker,
  p_fs (w_proc (exec cfg (repeat Resume k) st).1) = p_fs (w_proc st.1).
Proof.
  induction k as [|k IH]; intros [w t]; [done|].
  change (exec cfg (repeat Resume (Datatypes.S k)) (w, t))
    with (exec cfg (repeat Resume k) (step cfg Resume (w, t))).
  rewrite IH. apply resume_fs.
Qed.

Lemma resolve_no_fault fs0 path id i :
  resolve fs0 path = inr (id, i) -> faults fs0 !! path = None.
Proof. unfold resolve. by destruct (faults fs0 !! path). Qed.


Lemma resolve_create fs0 path id2 i2 :
  faults fs0 !! path = None ->
  inodes fs0 !! id2 = None ->
  resolve (env_apply (Create path id2 i2) fs0) path = inr (id2, i2).
Proof.
  intros H Hn. unfold resolve. simpl.
  by rewrite H, lookup_insert_eq, Hn, lookup_insert_eq.
Qed.

(** A new file appears at the path of a tracker that has read its file to
    the end. *)
Lemma recreate_from_reads cfg (st : world S * tracker) l s tr f id i fs0
    id2 i2 (k : nat) :
  idle_pc l ->
  Reads st l s tr f id i (String.length (i_data i)) fs0 ->
  name f = log_file cfg ->
  faults fs0 !! log_file cfg = None ->
  inodes fs0 !! id2 = None ->
  all_return cfg (Text.lines_of (i_data i2)) ->
  length (Text.lines_of (i_data i2)) + 8 <= k ->
  exists l' fd',
    idle_pc l' /\
    Holds (exec cfg (Env (Create (log_file cfg) id2 i2) :: repeat Resume k) st)
      l' (apply_lines (line_parsers cfg) (Text.lines_of (i_data i2)) s)
      (tr ++ [EvClose (fileno f) true; EvOpen fd'] ++
         flat_map (invocations (line_parsers cfg)) (Text.lines_of (i_data i2)))
      {| name := log_file cfg; fileno := fd' |}
      (i_data i2) (String.length (i_data i2)).
Proof.
  intros Hl H Hn Hfa Hnew Hok Hk.
  change (exec cfg (?a :: ?l) ?st) with (exec cfg l (step cfg a st)).
  assert (Hne : id2 <> id).
  { destruct H as (_ & _ & _ & _ & <- & d & Hf & <- & _).
    destruct (file_of_inode _ _ _ _ Hf) as [_ Hi]. intros ->. congruence. }
  apply (reads_create cfg _ _ _ _ _ _ _ _ _ (log_file cfg) id2 i2 Hnew) in H.
  pose proof (resolve_create fs0 (log_file cfg) id2 i2 Hfa Hnew) as Hr.
  destruct (reads_reach_check cfg _ _ _ _ _ _ _ _ Hl H) as (j & Hj & H1).
  pose proof (replaced_reopens cfg _ _ _ _ _ _ _ _ id2 i2 H1 Hn Hr Hne) as H2.
  apply (deliver_from_idle cfg _ _ _ _ _ _ _ (k - j - 3)) in H2;
    simpl; try done; try lia; [|unfold idle_pc; tauto].
  destruct H2 as (l' & Hl' & H2).
  rewrite <- !exec_app, <- !repeat_resume_add in H2.
  replace (j + (3 + (k - j - 3))) with k in H2 by lia.
  exists l', (p_next (w_proc (exec cfg (repeat Resume j)
                (step cfg (Env (Create (log_file cfg) id2 i2)) st)).1)).
  split; [done|]. rewrite <- app_assoc in H2. exact H2.
Qed.


(** X4. When another file is put at the path (a rotation by rename), the
    tracker releases the old file, then opens the path again, and delivers
    the lines of the new file from its beginning, after those of the old
    one. *)
Theorem track_file_replaced_rereads cfg w id i id2 i2 (k0 k : nat) :
  tail cfg = false ->
  resolve (p_fs (w_proc w)) (log_file cfg) = inr (id, i) ->
  inodes (p_fs (w_proc w)) !! id2 = None ->
  all_return cfg (Text.lines_of (i_data i)) ->
  all_return cfg (Text.lines_of (i_data i2)) ->
  length (Text.lines_of (i_data i)) + 3 <= k0 ->
  length (Text.lines_of (i_data i2)) + 8 <= k ->
  exists fd',
    t_trace (track_file cfg
       (repeat Resume k0 ++ Env (Create (log_file cfg) id2 i2) :: repeat Resume k)
       w).2 =
      (EvOpen (p_next (w_proc w)) ::
         flat_map (invocations (line_parsers cfg)) (Text.lines_of (i_data i)))
      ++ [EvClose (p_next (w_proc w)) true; EvOpen fd'] ++
         flat_map (invocations (line_parsers cfg)) (Text.lines_of (i_data i2)) /\
    w_store (track_file cfg
       (repeat Resume k0 ++ Env (Create (log_file cfg) id2 i2) :: repeat Resume k)
       w).1 =
      apply_lines (line_parsers cfg)
        (Text.lines_of (i_data i) ++ Text.lines_of (i_data i2)) (w_store w).
Proof.
  intros Ht Hr Hnew Hok Hok2 Hk0 Hk.
  destruct (track_file_quiescent cfg w id i k0 Ht Hr Hok Hk0) as (l & Hl & H).
  unfold track_file in *. rewrite exec_app.
  destruct (holds_reads _ _ _ _ _ _ _ H) as (id' & i' & H1 & Hd & Hr1).
  simpl name in Hr1. rewrite <- Hd in H1.
  assert (Hfs : p_fs (w_proc (exec cfg (repeat Resume k0) (w, start)).1)
                = p_fs (w_proc w)) by apply exec_resume_fs.
  rewrite Hfs in H1.
  destruct (recreate_from_reads cfg _ _ _ _ _ _ _ _ id2 i2 k Hl H1)
    as (l' & fd' & _ & H2); try done.
  { by apply resolve_no_fault in Hr. }
  destruct H2 as (_ & Hs & Htr & _). exists fd'.
  rewrite Hd in Hs, Htr.
  by rewrite Hs, Htr, apply_lines_app.
Qed.


(** *** How [track_file] ends *)

Lemma finally_pc w t o : t_pc (finally w t o).2 = Finished o.
Proof.
  unfold finally. destruct (t_io t) as [f|]; [|done].
  by destruct (aclose (w_proc w) f).
Qed.

Lemma resume_not_returned cfg w t :
  t_pc t <> Finished Returned ->
  t_pc (resume cfg w t).2 <> Finished Returned.
Proof.
  intros H. unfold resume, on_file_state.
  repeat match goal with
  | |- context [finally ?w' ?t' ?o] =>
      let H := fresh in
      pose proof (finally_pc w' t' o) as H;
      destruct (finally w' t' o)
  | |- context [match ?x with _ => _ end] => destruct x eqn:?
  end; simpl in *; congruence.
Qed.

Lemma step_not_returned cfg i (st : world S * tracker) :
  t_pc st.2 <> Finished Returned ->
  t_pc (step cfg i st).2 <> Finished Returned.
Proof.
  destruct st as [w t]. intros H. destruct i as [| | |a|between]; simpl.
  - by apply resume_not_returned.
  - unfold throw_cancel.
    destruct (t_pc t) eqn:E; try done; rewrite ?finally_pc; done.
  - destruct (timeout cfg); [|done]. unfold throw_cancel.
    destruct (t_pc t) eqn:E; try done; rewrite ?finally_pc; done.
  - done.
  - unfold resume_racing.
    destruct (t_pc t) eqn:E; try (by apply resume_not_returned).
    destruct (t_io t) as [f|] eqn:Eio; [|by apply resume_not_returned].
    unfold on_file_state.
    destruct (_check_file_state _ _ _) as [e|[]]; simpl;
      rewrite ?finally_pc; done.
Qed.

(** X7. [track_file] never returns normally: whatever happens, when it
    ends, it ends by raising (an error of a file operation or of a parser,
    a cancellation, or the timeout). *)
Theorem track_file_never_returns cfg (ins : list input) w o :
  t_pc (track_file cfg ins w).2 = Finished o -> exists e, o = Raised e.
Proof.
  assert (H : forall st : world S * tracker,
            t_pc st.2 <> Finished Returned ->
            t_pc (exec cfg ins st).2 <> Finished Returned).
  { induction ins as [|i ins IH]; intros st Hst; [done|].
    simpl. apply IH. by apply step_not_returned. }
  intros E. specialize (H (w, start) ltac:(done)).
  fold (track_file cfg ins w) in H. rewrite E in H.
  destruct o as [|e]; [done|]. by exists e.
Qed.

Lemma exec_finished cfg (ins : list input) :
  forall (st : world S * tracker) o,
  t_pc st.2 = Finished o -> (exec cfg ins st).2 = st.2.
Proof.
  induction ins as [|i ins IH]; intros [w t] o E; [done|].
  simpl in E. change (exec cfg (i :: ins) (w, t))
    with (exec cfg ins (step cfg i (w, t))).
  assert (Hs : (step cfg i (w, t)).2 = t).
  { apply SupervisorFacts.step_finished. unfold Supervisor.is_finished.
    by rewrite E. }
  rewrite (IH _ o); [done|]. by rewrite Hs.
Qed.


(** *** A tracker whose file stays in place *)

Lemma reaches_idle cfg w id i :
  resolve (p_fs (w_proc w)) (log_file cfg) = inr (id, i) ->
  all_return cfg (Text.lines_of (i_data i)) ->
  exists k0, forall k, k0 <= k ->
    idle_pc (t_pc (exec cfg (repeat Resume k) (w, start)).2).
Proof.
  intros Hr Hok.
  destruct (tail cfg && i_seekable i) eqn:E.
  - apply andb_prop in E as [Ht Hs]. exists 2. intros k Hk.
    replace k with (2 + (k - 2)) by lia.
    rewrite repeat_resume_add, exec_app.
    destruct (idle_forever cfg (k - 2) _ AtCheck _ _ _ _
                ltac:(unfold idle_pc; tauto)
                (resume_open_tail cfg w id i Ht Hs Hr)) as (l & Hl & H).
    destruct H as (Hpc & _). by rewrite Hpc.
  - assert (H0 : Holds (step cfg Resume (w, start)) AtCheck (w_store w)
                   [EvOpen (p_next (w_proc w))]
                   {| name := log_file cfg; fileno := p_next (w_proc w) |}
                   (i_data i) 0).
    { apply andb_false_iff in E as [Ht|Hs].
      - by apply (resume_open cfg w id i).
      - by apply (resume_open_fifo cfg w id i). }
    exists (length (Text.lines_of (i_data i)) + 3). intros k Hk.
    replace k with (1 + (k - 1)) by lia.
    rewrite repeat_resume_add, exec_app.
    change (exec cfg (repeat Resume 1) (w, start))
      with (step cfg Resume (w, start)).
    destruct (deliver_from_check cfg _ _ _ _ _ 0 (k - 1) H0) as (l & Hl & H);
      [lia|done|simpl; lia|].
    destruct H as (Hpc & _). by rewrite Hpc.
Qed.

(** X23. While its file stays in place and the parsers return,
    [track_file] does not end on its own: however often it is resumed, it
    is still running. *)
Theorem track_file_runs_forever cfg w id i (k : nat) :
  resolve (p_fs (w_proc w)) (log_file cfg) = inr (id, i) ->
  all_return cfg (Text.lines_of (i_data i)) ->
  Supervisor.is_finished (track_file cfg (repeat Resume k) w).2 = false.
Proof.
  intros Hr Hok. destruct (reaches_idle cfg w id i Hr Hok) as [k0 Hidle].
  specialize (Hidle (k + k0) ltac:(lia)).
  rewrite repeat_resume_add, exec_app in Hidle.
  unfold Supervisor.is_finished, track_file.
  destruct (t_pc (exec cfg (repeat Resume k) (w, start)).2) as [| | | | | | | |o]
    eqn:E; try done.
  rewrite (exec_finished cfg _ _ o E), E in Hidle.
  by destruct Hidle as [?|[?|?]].
Qed.

End WithStore.

End TrackerMoreFacts.
(** ** More of [_check_file_state] *)
Module ClassifierMoreFacts.

Import OS ClassifierFacts.

(** X9. The classifier answers DELETED exactly when the stat of the path
    fails because the path does not exist; whether the handle is still
    readable, and what other processes do afterwards, plays no part. *)
Theorem check_file_state_deleted_iff (p : proc) (between : list env_action)
    (f : AsyncFile) :
  _check_file_state p between f = inr DELETED <->
  stat_path (p_fs p) (name f) = inl FileNotFoundError.
Proof.
  split.
  - intros H. destruct (stat_path (p_fs p) (name f)) as [e|s1] eqn:Es.
    + rewrite (check_file_state_stat_error p between f e Es) in H.
      by destruct e.
    + unfold _check_file_state in H. rewrite Es in H. cbv zeta in H.
      destruct (stat_fd _ f); [done|].
      destruct (bool_decide _); [|done].
      destruct (seekable _ f) as [?|[|]]; try done.
      destruct (tell _ f); [done|]. by destruct (_ <? _)%Z.
  - intros H. by rewrite (check_file_state_stat_error p between f _ H).
Qed.

(** X10. The classifier answers TRUNCATED exactly when the stat of the
    path, taken first, and the stat of the open file, taken after what
    other processes did in between, are the same tuple, the file is
    seekable, and the read offset is greater than the size of the file
    at the second stat; in particular never for a stream that is not
    seekable.  When nothing changes between the two stats, the tuples are
    the same exactly when the path names the open file. *)
Theorem check_file_state_truncated_iff (p : proc) (between : list env_action)
    (f : AsyncFile) :
  (_check_file_state p between f = inr TRUNCATED <->
   exists id i d j,
     resolve (p_fs p) (name f) = inr (id, i) /\
     file_of (env_procs between p) f = inr (d, j) /\
     stat_of id i = stat_of (ofd_id d) j /\
     i_seekable j = true /\
     String.length (i_data j) < ofd_pos d) /\
  (_check_file_state p [] f = inr TRUNCATED <->
   exists d i,
     file_of p f = inr (d, i) /\
     resolve (p_fs p) (name f) = inr (ofd_id d, i) /\
     i_seekable i = true /\
     String.length (i_data i) < ofd_pos d).
Proof.
  assert (Hgen : forall between',
    _check_file_state p between' f = inr TRUNCATED <->
    exists id i d j,
      resolve (p_fs p) (name f) = inr (id, i) /\
      file_of (env_procs between' p) f = inr (d, j) /\
      stat_of id i = stat_of (ofd_id d) j /\
      i_seekable j = true /\
      String.length (i_data j) < ofd_pos d).
  { intros between'. split.
    - intros H.
      destruct (resolve (p_fs p) (name f)) as [e|[id i]] eqn:Hr.
      { rewrite (check_file_state_stat_error p between' f e) in H;
          [by destruct e|].
        unfold stat_path. by rewrite Hr. }
      destruct (file_of (env_procs between' p) f) as [e|[d j]] eqn:Hf.
      { unfold _check_file_state, stat_path, stat_fd in H.
        rewrite Hr in H. cbv zeta in H. rewrite Hf in H. discriminate. }
      rewrite (check_file_state_stats p between' f id i d j Hr Hf) in H.
      exists id, i, d, j. split; [done|]. split; [done|].
      case_bool_decide as Hst; [|done]. split; [done|].
      destruct (i_seekable j); [|done]. split; [done|].
      destruct (_ <? _)%Z eqn:E; [|done]. apply Z.ltb_lt in E. lia.
    - intros (id & i & d & j & Hr & Hf & Hst & Hs & Hlt).
      rewrite (check_file_state_stats p between' f id i d j Hr Hf).
      rewrite bool_decide_eq_true_2 by done. rewrite Hs.
      assert ((Z.of_nat (String.length (i_data j)) <? Z.of_nat (ofd_pos d))%Z
              = true) as -> by (apply Z.ltb_lt; lia).
      done. }
  split; [apply Hgen|]. rewrite (Hgen []). simpl. split.
  - intros (id & i & d & j & Hr & Hf & Hst & Hs & Hlt).
    pose proof (resolve_inode _ _ _ _ Hr) as Hi.
    destruct (file_of_inode _ _ _ _ Hf) as [_ Hj].
    apply (stat_of_same_file _ _ _ _ _ Hi Hj) in Hst. subst id.
    assert (i = j) as -> by congruence.
    by exists d, j.
  - intros (d & i & Hf & Hr & Hs & Hlt). by exists (ofd_id d), i, d, i.
Qed.

End ClassifierMoreFacts.

(** ** More of [track_async] and [track] *)
Module SupervisorMoreFacts.

Import OS Tracker Supervisor TrackerFacts SupervisorFacts.

Section WithStore.

Context {S : Type}.
Implicit Types (g : group S) (tk : task S) (w : world S).



(** X15. The errors that [track_async] collects for its exception group
    are exactly the exceptions, other than [CancelledError], with which
    the trackers whose done callback has run have ended; once
    [track_async] has ended, these are all the trackers. *)
Theorem track_async_errors_are_task_errors configs poll_delay tail timeout
    (sch : list sched) w (e : exn) :
  (In e (g_errors (track_async configs poll_delay tail timeout sch w)) <->
   e <> CancelledError /\
   exists i tk,
     g_tasks (track_async configs poll_delay tail timeout sch w) !! i
       = Some tk /\
     (i ∉ g_pending (track_async configs poll_delay tail timeout sch w)) /\
     t_pc (tk_state tk) = Finished (Raised e)) /\
  (forall o,
     track configs poll_delay tail timeout sch w = Some o ->
     (In e (g_errors (track_async configs poll_delay tail timeout sch w)) <->
      e <> CancelledError /\
      exists i tk,
        g_tasks (track_async configs poll_delay tail timeout sch w) !! i
          = Some tk /\
        t_pc (tk_state tk) = Finished (Raised e))).
Proof.
  destruct (track_async_inv configs poll_delay tail timeout sch w)
    as (Hinv & _ & _).
  unfold track.
  set (g := track_async configs poll_delay tail timeout sch w) in *.
  destruct Hinv as (_ & _ & Hc & _ & _ & _ & _ & _ & _ & Hj).
  split; [apply Hc|].
  intros o Ho. destruct (Hj o Ho) as [Hp _]. rewrite Hc.
  split; intros (Hne & i & tk & H); (split; [done|]); exists i, tk.
  - tauto.
  - destruct H as [Hi Hpc]. split; [done|]. split; [|done].
    rewrite Hp. set_solver.
Qed.

End WithStore.

End SupervisorMoreFacts.


(** ** More of [_load_parser_configs] *)
Module CliMoreFacts.

Import Tracker Cli CliMore.

(** *** The merged dictionary *)

Lemma extend_keys {H : Type} (c : list (string * list H)) k v :
  map fst (extend c k v) =
    if bool_decide (k ∈ map fst c) then map fst c else map fst c ++ [k].
Proof.
  induction c as [|[k0 v0] c IH]; simpl; [done|].
  destruct (String.eqb k0 k) eqn:E.
  - apply String.eqb_eq in E as ->. simpl.
    rewrite bool_decide_eq_true_2; [done|]. apply elem_of_cons. by left.
  - apply String.eqb_neq in E. simpl. rewrite IH.
    destruct (decide (k ∈ map fst c)) as [Hin|Hin].
    + rewrite !bool_decide_eq_true_2; try done. apply elem_of_cons. by right.
    + rewrite !bool_decide_eq_false_2; try done.
      intros Hin'. apply elem_of_cons in Hin' as [->|?]; done.
Qed.

Lemma extend_NoDup {H : Type} (c : list (string * list H)) k v :
  NoDup (map fst c) -> NoDup (map fst (extend c k v)).
Proof.
  intros Hc. rewrite extend_keys. case_bool_decide; [done|].
  apply NoDup_app. split; [done|]. split; [|apply NoDup_singleton].
  intros x Hx Hx'. apply list_elem_of_singleton in Hx' as ->. done.
Qed.

Lemma merge_NoDup {H : Type} (items c : list (string * list H)) :
  NoDup (map fst c) -> NoDup (map fst (merge items c)).
Proof.
  unfold merge. revert c. induction items as [|item items IH]; intros c Hc;
    [done|].
  simpl. apply IH. by apply extend_NoDup.
Qed.

Lemma parsers_for_extend {H : Type} (c : list (string * list H)) k v k' :
  parsers_for (extend c k v) k' =
    if String.eqb k k' then parsers_for c k' ++ v else parsers_for c k'.
Proof.
  induction c as [|[k0 v0] c IH]; simpl.
  - by destruct (String.eqb k k').
  - destruct (String.eqb k0 k) eqn:E; simpl.
    + apply String.eqb_eq in E as ->. by destruct (String.eqb k k').
    + destruct (String.eqb k0 k') eqn:E'; [|done].
      apply String.eqb_eq in E' as ->.
      rewrite String.eqb_sym in E. by rewrite E.
Qed.

Lemma parsers_for_merge {H : Type} (items c : list (string * list H))
    (log_file : string) :
  parsers_for (merge items c) log_file =
    parsers_for c log_file ++ said_for log_file items.
Proof.
  unfold merge, said_for. revert c.
  induction items as [|[k v] items IH]; intros c; simpl.
  - by rewrite app_nil_r.
  - rewrite IH, parsers_for_extend. simpl.
    destruct (String.eqb k log_file); [by rewrite <- app_assoc|done].
Qed.

(** X16. Merging the items of a parser module into [configs] appends, for
    every log file, the parsers the module gives for it after the parsers
    already registered, in order, and leaves the other files' parsers as
    they are. *)
Theorem merge_concatenates {H : Type} (items c : list (string * list H))
    (log_file : string) :
  parsers_for (merge items c) log_file =
    parsers_for c log_file ++ said_for log_file items.
Proof. apply parsers_for_merge. Qed.

Section Loader.

Context {S M Mod : Type}.
Variable realpath : string -> string.
Variable isdir : string -> bool.
Variable glob_py : string -> list string.
Variable dirname : string -> string.
Variable module_name : string -> string.
Variable import_module : string -> interp M -> interp M * (exn + Mod).
Variable getattr_items :
  Mod -> string -> exn + list (string * list (handler S)).

Lemma load_files_NoDup parser_files config_variable :
  forall configs st st' configs',
  NoDup (map fst configs) ->
  load_files module_name import_module getattr_items parser_files
    config_variable configs st = (st', inr configs') ->
  NoDup (map fst configs').
Proof.
  induction parser_files as [|file_path rest IH];
    intros configs st st' configs' Hc; simpl.
  { by intros [= <- <-]. }
  destruct (import_module (module_name file_path) st) as [st1 [e|m]]; [done|].
  destruct (getattr_items m config_variable) as [e|items]; [done|].
  apply IH. by apply (merge_NoDup items).
Qed.

Lemma load_parsers_NoDup parsers config_variable :
  forall configs st st' configs',
  NoDup (map fst configs) ->
  load_parsers realpath isdir glob_py dirname module_name import_module
    getattr_items parsers config_variable configs st = (st', inr configs') ->
  NoDup (map fst configs').
Proof.
  induction parsers as [|parser rest IH];
    intros configs st st' configs' Hc; simpl.
  { by intros [= <- <-]. }
  destruct (if isdir (realpath parser)
            then (realpath parser, glob_py (realpath parser))
            else (dirname (realpath parser), [realpath parser]))
    as [path_addition parser_files].
  destruct (load_files _ _ _ parser_files config_variable configs _)
    as [st2 [e|c2]] eqn:E; [done|].
  apply IH. by apply (load_files_NoDup _ _ _ _ _ _ Hc E).
Qed.

(** The association list that [_load_parser_configs] returns is a
    dictionary: each log file is a key once. *)
Lemma load_parser_configs_keys_unique parsers config_variable st st' configs :
  _load_parser_configs realpath isdir glob_py dirname module_name
    import_module getattr_items parsers config_variable st
    = (st', inr configs) ->
  NoDup (map fst configs).
Proof. apply load_parsers_NoDup. apply NoDup_nil_2. Qed.

Lemma load_parsers_app a b config_variable :
  forall configs st,
  load_parsers realpath isdir glob_py dirname module_name import_module
    getattr_items (a ++ b) config_variable configs st =
  match load_parsers realpath isdir glob_py dirname module_name import_module
          getattr_items a config_variable configs st with
  | (st', inl e) => (st', inl e)
  | (st', inr configs') =>
      load_parsers realpath isdir glob_py dirname module_name import_module
        getattr_items b config_variable configs' st'
  end.
Proof.
  induction a as [|parser a IH]; intros configs st; [done|]. simpl.
  destruct (if isdir (realpath parser)
            then (realpath parser, glob_py (realpath parser))
            else (dirname (realpath parser), [realpath parser]))
    as [path_addition parser_files].
  destruct (load_files _ _ _ parser_files config_variable configs _)
    as [st2 [e|c2]]; [done|].
  apply IH.
Qed.

(** X18. [_load_parser_configs] stops at the first parser that fails (an
    import that raises, a module without the configuration variable): the
    parsers listed after it are not loaded and do not change the error or
    the interpreter state. *)
Theorem load_parser_configs_stops_at_first_error parsers more
    config_variable st st' (e : exn) :
  _load_parser_configs realpath isdir glob_py dirname module_name
    import_module getattr_items parsers config_variable st = (st', inl e) ->
  _load_parser_configs realpath isdir glob_py dirname module_name
    import_module getattr_items (parsers ++ more) config_variable st
    = (st', inl e).
Proof.
  unfold _load_parser_configs. intros H. by rewrite load_parsers_app, H.
Qed.

Lemma load_files_prefix parser_files config_variable (log_file : string) :
  forall configs st st' configs',
  load_files module_name import_module getattr_items parser_files
    config_variable configs st = (st', inr configs') ->
  exists later,
    parsers_for configs' log_file = parsers_for configs log_file ++ later.
Proof.
  induction parser_files as [|file_path rest IH];
    intros configs st st' configs'; simpl.
  { intros [= <- <-]. exists []. by rewrite app_nil_r. }
  destruct (import_module (module_name file_path) st) as [st1 [e|m]]; [done|].
  destruct (getattr_items m config_variable) as [e|items]; [done|].
  intros E. apply IH in E as [later E].
  change (fold_left _ items configs) with (merge items configs) in E.
  rewrite parsers_for_merge, <- app_assoc in E. by eexists.
Qed.

Lemma load_parsers_prefix parsers config_variable (log_file : string) :
  forall configs st st' configs',
  load_parsers realpath isdir glob_py dirname module_name import_module
    getattr_items parsers config_variable configs st = (st', inr configs') ->
  exists later,
    parsers_for configs' log_file = parsers_for configs log_file ++ later.
Proof.
  induction parsers as [|parser rest IH];
    intros configs st st' configs'; simpl.
  { intros [= <- <-]. exists []. by rewrite app_nil_r. }
  destruct (if isdir (realpath parser)
            then (realpath parser, glob_py (realpath parser))
            else (dirname (realpath parser), [realpath parser]))
    as [path_addition parser_files].
  destruct (load_files _ _ _ parser_files config_variable configs _)
    as [st2 [e|c2]] eqn:E; [done|].
  intros E2. apply IH in E2 as [later2 E2].
  apply (load_files_prefix _ _ log_file) in E as [later1 E].
  rewrite E, <- app_assoc in E2. by eexists.
Qed.

(** X17. The parsers of a log file are registered in the order of the
    [parsers] argument: what the first paths give for the file comes
    first, in the same order, whatever paths are listed after them. *)
Theorem load_parser_configs_keeps_order parsers more config_variable
    st st1 st2 configs1 configs2 (log_file : string) :
  _load_parser_configs realpath isdir glob_py dirname module_name
    import_module getattr_items parsers config_variable st
    = (st1, inr configs1) ->
  _load_parser_configs realpath isdir glob_py dirname module_name
    import_module getattr_items (parsers ++ more) config_variable st
    = (st2, inr configs2) ->
  exists later,
    parsers_for configs2 log_file = parsers_for configs1 log_file ++ later.
Proof.
  unfold _load_parser_configs. intros H1 H2.
  rewrite load_parsers_app, H1 in H2.
  by apply (load_parsers_prefix _ _ log_file) in H2.
Qed.

End Loader.

(** *** The entry of [sys.path] that the [finally] clause removes *)

(** X19. What l.42 removes from [sys.path]: nothing exactly when the path
    is not in the list; otherwise one entry, the last one equal to the
    path, the order of the others unchanged. *)
Theorem remove_last_spec (x : string) (l : list string) :
  (remove_last x l = None <-> ~ In x l) /\
  (forall l', remove_last x l = Some l' ->
     exists a b, l = a ++ x :: b /\ l' = a ++ b /\ ~ In x b).
Proof.
  induction l as [|y l [IH1 IH2]]; simpl.
  { split; [tauto|done]. }
  destruct (remove_last x l) as [r|] eqn:E.
  - split.
    + split; [done|]. intros Hn. exfalso.
      destruct (IH2 r eq_refl) as (a & b & -> & _ & _).
      apply Hn. right. apply in_or_app. right. by left.
    + intros l' [= <-]. destruct (IH2 r eq_refl) as (a & b & -> & -> & Hb).
      by exists (y :: a), b.
  - assert (Hn : ~ In x l) by (by apply IH1).
    destruct (String.eqb y x) eqn:Ey.
    + apply String.eqb_eq in Ey as ->. split.
      * split; [done|]. intros Hx. exfalso. apply Hx. by left.
      * intros l' [= <-]. by exists [], l.
    + apply String.eqb_neq in Ey. split; [|done].
      split; [|done]. intros _ [?|?]; done.
Qed.

End CliMoreFacts.
(** ** Command-line defaults: [add_parser_args] and [_truthy] *)
Module ArgsFacts.
Import Args TextFacts.

(** *** The list of parser paths *)

Lemma split_colon_one (p : string) :
  has_colon p = false -> split_colon p = [p].
Proof.
  induction p as [|c p IH]; [done|]. simpl.
  intros H. apply orb_false_elim in H as [Hc Hp].
  rewrite Hc. by rewrite (IH Hp).
Qed.

Lemma split_colon_cons (p rest : string) :
  has_colon p = false ->
  split_colon (p +:+ String COLON rest) = p :: split_colon rest.
Proof.
  induction p as [|c p IH]; intros H.
  - change (EmptyString +:+ String COLON rest) with (String COLON rest).
    reflexivity.
  - simpl in H. apply orb_false_elim in H as [Hc Hp].
    rewrite append_cons. simpl. rewrite Hc. by rewrite (IH Hp).
Qed.

Lemma split_colon_join (ps : list string) :
  ps <> [] ->
  Forall (fun p => has_colon p = false) ps ->
  split_colon (join_colon ps) = ps.
Proof.
  intros Hne H. induction H as [|p ps Hp Hps IH]; [done|].
  destruct ps as [|q ps].
  - simpl. by apply split_colon_one.
  - change (join_colon (p :: q :: ps))
      with (p +:+ String COLON (join_colon (q :: ps))).
    rewrite split_colon_cons by done. by rewrite IH.
Qed.

Lemma split_colon_clean (s : string) :
  Forall (fun p => has_colon p = false) (split_colon s).
Proof.
  induction s as [|c s IH]; simpl; [by repeat constructor|].
  destruct (Ascii.eqb c COLON) eqn:E; [by constructor|].
  destruct (split_colon s) as [|p ps]; [by repeat constructor; simpl; rewrite E|].
  inversion IH; subst. constructor; [|done]. simpl. by rewrite E.
Qed.

(** X20. The default of [--parsers] reads back what was joined with
    colons: for paths that are non-empty and contain no colon,
    [LOG_PARSER_PARSERS=":".join(paths)] gives exactly [paths], in order. *)
Theorem default_parsers_round_trip (paths : list string) :
  Forall (fun p => nonempty p = true /\ has_colon p = false) paths ->
  default_parsers (Some (join_colon paths)) = paths.
Proof.
  intros H. unfold default_parsers, getenv.
  destruct paths as [|p ps]; [done|].
  rewrite split_colon_join; [|done|].
  - induction H as [|q qs [Hq _] _ IH]; [done|]. simpl. by rewrite Hq, IH.
  - eapply Forall_impl; [exact H|]. by intros q [_ ?].
Qed.

(** X21. Whatever the value of [LOG_PARSER_PARSERS], every default parser
    path is non-empty and contains no colon; an unset or empty variable
    gives no path at all (not one empty path). *)
Theorem default_parsers_clean (value : option string) :
  Forall (fun p => nonempty p = true /\ has_colon p = false)
         (default_parsers value) /\
  default_parsers None = [] /\
  default_parsers (Some EmptyString) = [].
Proof.
  split; [|done]. unfold default_parsers.
  generalize (split_colon_clean (getenv value EmptyString)).
  generalize (split_colon (getenv value EmptyString)).
  induction 1 as [|p ps Hp _ IH]; simpl; [constructor|].
  destruct (nonempty p) eqn:E; [|done]. by constructor.
Qed.

(** *** [_truthy] *)

Lemma truthy_some (s : string) :
  _truthy (Some s) =
  (String.eqb (Text.strip (lower s)) "1" ||
   String.eqb (Text.strip (lower s)) "true" ||
   String.eqb (Text.strip (lower s)) "t").
Proof. by destruct s. Qed.

Lemma lower_append (a b : string) : lower (a +:+ b) = lower a +:+ lower b.
Proof.
  induction a as [|c a IH]; [done|].
  rewrite append_cons. simpl. by rewrite IH, append_cons.
Qed.

Lemma lower_char_space (c : ascii) : Text.isspace c = true -> lower_char c = c.
Proof.
  unfold Text.isspace, lower_char. intros H.
  destruct (Nat.leb 65 (nat_of_ascii c) && Nat.leb (nat_of_ascii c) 90) eqn:E;
    [|done].
  exfalso. apply andb_prop in E as [E1 E2].
  apply Nat.leb_le in E1. apply orb_prop in H as [H|H];
    apply andb_prop in H as [_ H]; apply Nat.leb_le in H; lia.
Qed.

Lemma lower_space (a : string) : all_space a = true -> lower a = a.
Proof.
  induction a as [|c a IH]; [done|]. simpl. intros H.
  apply andb_prop in H as [Hc Ha]. by rewrite lower_char_space, IH.
Qed.

Lemma lstrip_space_append (a y : string) :
  all_space a = true -> Text.lstrip (a +:+ y) = Text.lstrip y.
Proof.
  induction a as [|c a IH]; [done|]. intros H.
  simpl in H. apply andb_prop in H as [Hc Ha].
  rewrite append_cons. cbn [Text.lstrip]. by rewrite Hc, IH.
Qed.

Lemma rstrip_space (b : string) :
  all_space b = true -> Text.rstrip b = EmptyString.
Proof.
  induction b as [|c b IH]; [done|]. simpl. intros H.
  apply andb_prop in H as [Hc Hb]. by rewrite IH, Hc.
Qed.

Lemma rstrip_append_space (y b : string) :
  all_space b = true -> Text.rstrip (y +:+ b) = Text.rstrip y.
Proof.
  intros Hb. induction y as [|c y IH].
  - by apply rstrip_space.
  - rewrite append_cons. simpl. by rewrite IH.
Qed.

Lemma lstrip_space (b : string) :
  all_space b = true -> Text.lstrip b = EmptyString.
Proof.
  induction b as [|c b IH]; [done|]. intros H.
  simpl in H. apply andb_prop in H as [Hc Hb].
  cbn [Text.lstrip]. by rewrite Hc, IH.
Qed.

Lemma strip_append_space (x b : string) :
  all_space b = true -> Text.strip (x +:+ b) = Text.strip x.
Proof.
  intros Hb. unfold Text.strip. induction x as [|c x IH].
  - change (EmptyString +:+ b) with b. by rewrite lstrip_space.
  - rewrite append_cons. cbn [Text.lstrip].
    destruct (Text.isspace c); [exact IH|].
    by rewrite <- append_cons, rstrip_append_space.
Qed.

Lemma strip_padded (a x b : string) :
  all_space a = true -> all_space b = true ->
  Text.strip (a +:+ x +:+ b) = Text.strip x.
Proof.
  intros Ha Hb. unfold Text.strip. rewrite lstrip_space_append by done.
  by apply strip_append_space.
Qed.

(** X22. [_truthy] ignores letter case and surrounding white space: on
    ASCII text, padding a value with white space on both sides and changing
    the case of its letters does not change the answer. *)
Theorem truthy_ignores_case_and_padding (a s b s' : string) :
  ascii_only s ->
  all_space a = true ->
  all_space b = true ->
  lower s = lower s' ->
  _truthy (Some (a +:+ s +:+ b)) = _truthy (Some s').
Proof.
  intros _ Ha Hb Hs. rewrite !truthy_some, !lower_append.
  rewrite (lower_space a Ha), (lower_space b Hb), Hs.
  by rewrite strip_padded.
Qed.

End ArgsFacts.

(** ** The properties above on concrete files *)
Module MoreExamples.

Import OS Tracker Supervisor Cli CliMore Args Scenarios ScenariosMore.



(** A named pipe holding two lines, tracked with [tail=True]. *)
Lemma track_file_tail_ignored_on_pipe_witness :
  delivered (t_trace (track_file (tailing "events" [keep_line])
      (repeat Resume 5)
      (begin (one_fifo "events" 7 ("e1" +:+ nl +:+ "e2" +:+ nl)))).2) =
    [(0, "e1" +:+ nl); (0, "e2" +:+ nl)].
Proof.
  apply (TrackerMoreFacts.track_file_tail_ignored_on_pipe
           (tailing "events" [keep_line])
           (begin (one_fifo "events" 7 ("e1" +:+ nl +:+ "e2" +:+ nl)))
           (2049, 7)%Z (fifo ("e1" +:+ nl +:+ "e2" +:+ nl)) 5).
  - reflexivity.
  - vm_compute; reflexivity.
  - repeat constructor.
  - simpl; lia.
Defined.


(** Another file, holding "c1\n", is renamed over the path. *)
Lemma track_file_replaced_rereads_witness :
  exists fd',
    t_trace (track_file (defaults test_log [basic_line_parser])
       (repeat Resume 4
          ++ Env (Create test_log (2049, 101)%Z (regular ("c1" +:+ nl)))
          :: repeat Resume 9)
       present_only).2 =
      [EvOpen 3; EvCall 0 ("b1" +:+ nl)]
      ++ [EvClose 3 true; EvOpen fd'] ++ [EvCall 0 ("c1" +:+ nl)] /\
    w_store (track_file (defaults test_log [basic_line_parser])
       (repeat Resume 4
          ++ Env (Create test_log (2049, 101)%Z (regular ("c1" +:+ nl)))
          :: repeat Resume 9)
       present_only).1 = ["b1"; "c1"].
Proof.
  apply (TrackerMoreFacts.track_file_replaced_rereads
           (defaults test_log [basic_line_parser]) present_only
           (2049, 100)%Z (regular ("b1" +:+ nl))
           (2049, 101)%Z (regular ("c1" +:+ nl)) 4 9).
  - reflexivity.
  - vm_compute; reflexivity.
  - vm_compute; reflexivity.
  - repeat constructor.
  - repeat constructor.
  - simpl; lia.
  - simpl; lia.
Defined.


(** A tracker whose file does not exist ends at the open, by raising. *)
Lemma track_file_never_returns_witness :
  t_pc (track_file (defaults "missing.log" [basic_line_parser])
          [Resume] present_only).2 = Finished (Raised FileNotFoundError) /\
  exists e, Raised FileNotFoundError = Raised e.
Proof.
  split; [reflexivity|].
  apply (TrackerMoreFacts.track_file_never_returns
           (defaults "missing.log" [basic_line_parser]) [Resume] present_only
           (Raised FileNotFoundError)).
  reflexivity.
Defined.

(** A tracker of a file that stays in place, resumed ten times. *)
Lemma track_file_runs_forever_witness :
  is_finished (track_file (defaults test_log [basic_line_parser])
                 (repeat Resume 10) present_only).2 = false.
Proof.
  apply (TrackerMoreFacts.track_file_runs_forever
           (defaults test_log [basic_line_parser]) present_only
           (2049, 100)%Z (regular ("b1" +:+ nl)) 10).
  - vm_compute; reflexivity.
  - repeat constructor.
Defined.


(** The same parser file listed twice registers its parser twice, the
    first registration first. *)
Lemma load_parser_configs_keeps_order_witness :
  exists later,
    parsers_for [(test_log, [basic_line_parser; basic_line_parser])] test_log
    = parsers_for [(test_log, [basic_line_parser])] test_log ++ later.
Proof.
  apply (CliMoreFacts.load_parser_configs_keeps_order
           (fun p => p) (fun _ => false) (fun _ => []) parent_dir stem
           import_app getattr_of ["/parsers/app.py"] ["/parsers/app.py"]
           "LOG_PARSER_CONFIG" python python python
           [(test_log, [basic_line_parser])]
           [(test_log, [basic_line_parser; basic_line_parser])] test_log).
  - reflexivity.
  - reflexivity.
Defined.

(** A parser file that cannot be imported, listed before one that can. *)
Lemma load_parser_configs_stops_at_first_error_witness :
  _load_parser_configs (fun p => p) (fun _ => false) (fun _ => [])
    parent_dir stem import_app getattr_of
    (["/parsers/absent.py"] ++ ["/parsers/app.py"]) "LOG_PARSER_CONFIG" python
  = (python, inl ModuleNotFoundError).
Proof.
  apply (CliMoreFacts.load_parser_configs_stops_at_first_error
           (fun p => p) (fun _ => false) (fun _ => []) parent_dir stem
           import_app getattr_of ["/parsers/absent.py"] ["/parsers/app.py"]
           "LOG_PARSER_CONFIG" python python ModuleNotFoundError).
  reflexivity.
Defined.

(** [LOG_PARSER_PARSERS=/parsers/app.py:/etc/parsers] *)
Lemma default_parsers_round_trip_witness :
  default_parsers (Some (join_colon ["/parsers/app.py"; "/etc/parsers"]))
  = ["/parsers/app.py"; "/etc/parsers"].
Proof.
  apply (ArgsFacts.default_parsers_round_trip
           ["/parsers/app.py"; "/etc/parsers"]).
  repeat constructor.
Defined.

(** TRUE between a space and a line feed is as true as true. *)
Lemma truthy_ignores_case_and_padding_witness :
  _truthy (Some (" " +:+ "TRUE" +:+ nl)) = _truthy (Some "true").
Proof.
  apply (ArgsFacts.truthy_ignores_case_and_padding " " "TRUE" nl "true").
  - repeat constructor; simpl; lia.
  - reflexivity.
  - reflexivity.
  - reflexivity.
Defined.

(** X15 on the missing file: when [track_async] has ended, the error of
    the group is the error of the first tracker. *)
Lemma track_async_errors_are_task_errors_witness :
  track missing_and_present 1 false None sibling_schedule present_only =
    Some (Raised (ExceptionGroup [FileNotFoundError])) /\
  (In FileNotFoundError
      (g_errors (track_async missing_and_present 1 false None
                   sibling_schedule present_only)) <->
    FileNotFoundError <> CancelledError /\
    exists i tk,
      g_tasks (track_async missing_and_present 1 false None
                 sibling_schedule present_only) !! i = Some tk /\
      t_pc (tk_state tk) = Finished (Raised FileNotFoundError)).
Proof.
  split; [vm_compute; reflexivity|].
  apply (proj2 (SupervisorMoreFacts.track_async_errors_are_task_errors
                  missing_and_present 1 false None sibling_schedule
                  present_only FileNotFoundError)
           (Raised (ExceptionGroup [FileNotFoundError]))).
  vm_compute; reflexivity.
Defined.

End MoreExamples.
